(** * everybit/bitarray.c : a packed array of bits with subrange rotation

    A shallow embedding of [src/everybit/bitarray.c] and the properties of
    its storage operations, its index and mask helpers and its two rotation
    routines ([bitarray_rotate], the mask based one, and
    [bitarray_rotate_old], the bit-by-bit one).

    Conventions of the embedding (LP64, two's complement, [char] signed, as
    on the x86-64 System V ABI the file is written for):
    - a [size_t] is a [Z] in [0, 2^64), a [ssize_t] a [Z] in
      [-2^63, 2^63); every arithmetic result is wrapped explicitly with
      [size_wrap] or [ssize_wrap];
    - a [char] is a [Z] in [-128, 128), an [unsigned char] a [Z] in
      [0, 256).  Integer promotion to [int] keeps the value, and the
      bitwise operators of [Z] act on the infinite two's complement
      expansion, so [Z.land], [Z.lor], [Z.lnot] and [Z.shiftr] on promoted
      values are exactly the C operators on sign-extended [int]s;
    - a failed [assert] and an access outside the buffer or outside a
      constant table end the run: functions that can do either return an
      [outcome];
    - the [printf] tracing of [rotate_single] writes to standard output
      only and is left out. *)

From Stdlib Require Import ZArith Lia Bool List.
From stdpp Require Import base list.
From Equations Require Import Equations.

Local Open Scope Z_scope.

(** ** Outcomes of a call *)

Inductive fault : Type :=
| AssertFailed   (* an [assert] did not hold: the process aborts *)
| OutOfBounds.   (* a read or write outside an array *)

Inductive outcome (A : Type) : Type :=
| Ok (a : A)
| Err (f : fault).

Arguments Ok {A} a.
Arguments Err {A} f.

Definition bind {A B : Type} (r : outcome A) (k : A -> outcome B) : outcome B :=
  match r with
  | Ok a => k a
  | Err f => Err f
  end.

Notation "x <- c1 ;; c2" := (bind c1 (fun x => c2))
  (at level 100, c1 at next level, right associativity).

(** ** Machine integers *)

Definition SIZE_MOD : Z := 2 ^ 64.
Definition SSIZE_MAX : Z := 2 ^ 63 - 1.
Definition SSIZE_MIN : Z := - 2 ^ 63.

(** Arithmetic on [size_t] is modulo [2^64]. *)
Definition size_wrap (z : Z) : Z := z mod SIZE_MOD.

(** Conversion to [ssize_t], and [ssize_t] arithmetic, keep the low 64 bits
    read as a two's complement number. *)
Definition ssize_wrap (z : Z) : Z := (z + 2 ^ 63) mod SIZE_MOD - 2 ^ 63.

(** Conversion of an [int] to [char] and to [unsigned char]. *)
Definition to_char (z : Z) : Z := (z + 128) mod 256 - 128.
Definition to_uchar (z : Z) : Z := z mod 256.

Definition is_size_t (z : Z) : Prop := 0 <= z < SIZE_MOD.
Definition is_ssize_t (z : Z) : Prop := SSIZE_MIN <= z <= SSIZE_MAX.
Definition is_char (z : Z) : Prop := -128 <= z < 128.

(** ** Types *)

(** [struct bitarray]: the number of bits and the packed buffer. *)
Record bitarray : Type := mk_bitarray {
  bit_sz : Z;
  buf : list Z
}.

(** [buf[i]] as an rvalue. *)
Definition buf_at (a : bitarray) (i : Z) : outcome Z :=
  match buf a !! Z.to_nat i with
  | Some c => Ok c
  | None => Err OutOfBounds
  end.

(** [buf[i] = c]. *)
Definition buf_store (a : bitarray) (i : Z) (c : Z) : outcome bitarray :=
  if (Z.to_nat i <? length (buf a))%nat
  then Ok (mk_bitarray (bit_sz a) (<[Z.to_nat i := c]> (buf a)))
  else Err OutOfBounds.

(** ** Storage *)

(** [bitarray_new]: [calloc] of [bit_sz / 8 + (bit_sz % 8 == 0 ? 0 : 1)]
    zero bytes, then [malloc] of the struct.  Whether each allocation
    succeeds is decided by the allocator: the two flags say so.  [None] is
    the [NULL] result. *)
Definition bitarray_new (calloc_ok malloc_ok : bool) (bit_sz : Z)
  : option bitarray :=
  let nbytes := size_wrap (bit_sz / 8 + (if bit_sz mod 8 =? 0 then 0 else 1)) in
  if calloc_ok then
    if malloc_ok then Some (mk_bitarray bit_sz (replicate (Z.to_nat nbytes) 0))
    else None
  else None.

Definition bitarray_get_bit_sz (a : bitarray) : Z := bit_sz a.

(** [bitmask]: [1 << (bit_index % 8)], returned as a [char]. *)
Definition bitmask (bit_index : Z) : Z :=
  to_char (Z.shiftl 1 (bit_index mod 8)).

Definition bitarray_get (a : bitarray) (bit_index : Z) : outcome bool :=
  if bit_index <? bit_sz a then
    c <- buf_at a (bit_index / 8) ;;
    Ok (negb (Z.land c (bitmask bit_index) =? 0))
  else Err AssertFailed.

Definition bitarray_set (a : bitarray) (bit_index : Z) (value : bool)
  : outcome bitarray :=
  if bit_index <? bit_sz a then
    c <- buf_at a (bit_index / 8) ;;
    buf_store a (bit_index / 8)
      (to_char (Z.lor (Z.land c (Z.lnot (bitmask bit_index)))
                      (if value then bitmask bit_index else 0)))
  else Err AssertFailed.

(** ** Index and mask helpers *)

(** [modulo]: the remainder operator [%] of C truncates, which is [Z.rem].
    The sum [(n % signed_m) + signed_m] is a [ssize_t] sum: it is wrapped
    when it leaves the range, and the second [assert] then decides. *)
Definition modulo (n m : Z) : outcome Z :=
  let signed_m := ssize_wrap m in
  if 0 <? signed_m then
    let result := Z.rem (ssize_wrap (Z.rem n signed_m + signed_m)) signed_m in
    if 0 <=? result then Ok (size_wrap result) else Err AssertFailed
  else Err AssertFailed.

Definition get_shift (bit_length bit_right_amount : Z) : outcome Z :=
  r <- modulo bit_right_amount bit_length ;;
  let result := ssize_wrap r in
  Ok (if result <? 0 then ssize_wrap (size_wrap (result + bit_length))
      else result).

Definition get_char_index (bit_offset : Z) : Z := bit_offset / 8.

Definition get_end_char_index (bit_offset bit_length : Z) : Z :=
  get_char_index (size_wrap (bit_offset + bit_length - 1)).

Definition get_end_bit (bit_offset bit_length : Z) : Z :=
  size_wrap (8 - size_wrap (bit_offset + bit_length) mod 8) mod 8.

(** The constant tables, as the [char] values their initialisers convert
    to. *)
Definition end_mask : list Z :=
  map to_char [0xFF; 0xFE; 0xFC; 0xF8; 0xF0; 0xE0; 0xC0; 0x80].
Definition begin_mask : list Z :=
  map to_char [0x00; 0x01; 0x03; 0x07; 0x0F; 0x1F; 0x3F; 0x7F].
Definition left_mask : list Z :=
  map to_char [0xFF; 0x7F; 0x3F; 0x1F; 0x0F; 0x07; 0x03; 0x01; 0x00].
Definition right_mask : list Z :=
  map to_char [0xFF; 0xFE; 0xFC; 0xF8; 0xF0; 0xE0; 0xC0; 0x80; 0x00].

Definition table_at (t : list Z) (i : Z) : outcome Z :=
  match t !! Z.to_nat i with
  | Some c => Ok c
  | None => Err OutOfBounds
  end.

(** [clean_left] clears the [bit_count] most significant bits of [c],
    [clean_right] the [bit_count] least significant ones. *)
Definition clean_left (c : Z) (bit_count : Z) : outcome Z :=
  m <- table_at left_mask bit_count ;;
  Ok (to_char (Z.land c m)).

Definition clean_right (c : Z) (bit_count : Z) : outcome Z :=
  m <- table_at right_mask bit_count ;;
  Ok (to_char (Z.land c m)).

(** ** Rotation: the mask based routine *)

(** [rotate_single] rebuilds one byte from four pieces: [c1], the subrange
    bits from [beginBit + shiftBit] on, moved down by [shiftBit]; [c2], the
    first [shiftBit] subrange bits, moved up to the end of the subrange;
    [c3], the bits below the subrange; [c4], the bits above it.  [c1], [c3]
    and [c4] are [char], [c] and [c2] are [unsigned char]; [c1 >> shiftBit]
    is a shift of the promoted, sign-extended [c1]. *)
Definition rotate_single (a : bitarray) (charIndex beginBit endBit shiftBit : Z)
  : outcome bitarray :=
  cb <- buf_at a charIndex ;;
  let c := to_uchar cb in
  c1 <- clean_left (to_char c) endBit ;;
  c1 <- clean_right c1 (size_wrap (beginBit + shiftBit)) ;;
  let c1 := to_char (Z.shiftr c1 shiftBit) in
  c2 <- clean_left (to_char c) (size_wrap (8 - size_wrap (beginBit + shiftBit))) ;;
  let c2 := to_uchar c2 in
  c2 <- clean_right (to_char c2) beginBit ;;
  let c2 := to_uchar c2 in
  let left_shift := size_wrap (size_wrap (size_wrap (8 - beginBit) - shiftBit) - endBit) in
  let c2 := to_uchar (Z.rem (to_uchar (Z.shiftl (to_uchar c2) left_shift)) 256) in
  c3 <- clean_left (to_char c) (size_wrap (8 - beginBit)) ;;
  c4 <- clean_right (to_char c) (size_wrap (8 - endBit)) ;;
  let c := to_uchar (Z.lor (Z.lor (Z.lor c1 c2) c3) c4) in
  buf_store a charIndex (to_char c).

Definition bitarray_rotate (a : bitarray)
    (bit_offset bit_length bit_right_amount : Z) : outcome bitarray :=
  if size_wrap (bit_offset + bit_length) >? bit_sz a then Ok a
  else if (bit_length =? 0) || (bit_length =? 1) then Ok a
  else
    shift <- get_shift bit_length bit_right_amount ;;
    if shift =? 0 then Ok a
    else
      let shiftByte := Z.quot shift 8 in
      let shiftBit := Z.rem shift 8 in
      let beginCharIndex := get_char_index bit_offset in
      let endCharIndex := get_char_index (size_wrap (bit_offset + bit_length - 1)) in
      let beginBit := bit_offset mod 8 in
      let endBit := get_end_bit bit_offset bit_length in
      if beginCharIndex =? endCharIndex
      then rotate_single a beginCharIndex beginBit endBit shiftBit
      else Ok a.

(** ** Rotation: the bit-by-bit routine *)

(** The loop of [bitarray_rotate_left_one],
    [for (; i + 1 < bit_offset + bit_length; i++)
       bitarray_set(bitarray, i, bitarray_get(bitarray, i + 1));]
    which hands back the array and the final [i].  Both sides of the test
    are [size_t] sums. *)
Equations? rotate_left_one_loop (a : bitarray) (bit_offset bit_length i : Z)
  : outcome (bitarray * Z)
  by wf (Z.to_nat (size_wrap (bit_offset + bit_length) - size_wrap (i + 1))) lt :=
  rotate_left_one_loop a bit_offset bit_length i
    with Z_lt_dec (size_wrap (i + 1)) (size_wrap (bit_offset + bit_length)) := {
    | left Hlt =>
        match (v <- bitarray_get a (size_wrap (i + 1)) ;; bitarray_set a i v) with
        | Ok a' => rotate_left_one_loop a' bit_offset bit_length (size_wrap (i + 1))
        | Err f => Err f
        end
    | right _ => Ok (a, i) }.
Proof.
  unfold size_wrap, SIZE_MOD in *.
  pose proof (Z.mod_pos_bound (bit_offset + bit_length) (2 ^ 64) ltac:(lia)).
  pose proof (Z.mod_pos_bound (i + 1) (2 ^ 64) ltac:(lia)).
  rewrite (Z.mod_small ((i + 1) mod 2 ^ 64 + 1)) by lia. lia.
Qed.

Definition bitarray_rotate_left_one (a : bitarray) (bit_offset bit_length : Z)
  : outcome bitarray :=
  first_bit <- bitarray_get a bit_offset ;;
  r <- rotate_left_one_loop a bit_offset bit_length bit_offset ;;
  bitarray_set (fst r) (snd r) first_bit.

(** [for (size_t i = 0; i < bit_left_amount; i++)]: the body runs
    [bit_left_amount] times and does not read [i]. *)
Fixpoint rotate_left_times (n : nat) (a : bitarray) (bit_offset bit_length : Z)
  : outcome bitarray :=
  match n with
  | O => Ok a
  | S n' =>
      a' <- bitarray_rotate_left_one a bit_offset bit_length ;;
      rotate_left_times n' a' bit_offset bit_length
  end.

Definition bitarray_rotate_left (a : bitarray)
    (bit_offset bit_length bit_left_amount : Z) : outcome bitarray :=
  rotate_left_times (Z.to_nat bit_left_amount) a bit_offset bit_length.

Definition bitarray_rotate_old (a : bitarray)
    (bit_offset bit_length bit_right_amount : Z) : outcome bitarray :=
  if size_wrap (bit_offset + bit_length) <=? bit_sz a then
    if bit_length =? 0 then Ok a
    else
      n <- modulo (ssize_wrap (- bit_right_amount)) bit_length ;;
      bitarray_rotate_left a bit_offset bit_length n
  else Err AssertFailed.

(** * Vocabulary of the properties *)

(** ** Exhaustive checks

    A [char] has 256 values and a byte 8 bit positions, so a fact about one
    byte is decided by running the code on all of them.  [all_from n lo p]
    checks [p] on the [n] integers from [lo] on. *)

Fixpoint all_from (n : nat) (lo : Z) (p : Z -> bool) : bool :=
  match n with
  | O => true
  | S n' => p lo && all_from n' (lo + 1) p
  end.

Definition all_chars (p : Z -> bool) : bool := all_from 256 (-128) p.
Definition all_bits (p : Z -> bool) : bool := all_from 8 0 p.

Definition is_charb (c : Z) : bool := (-128 <=? c) && (c <? 128).

(** ** Bits and bytes *)

(** The byte [bitarray_set] stores for the old byte [c], the position [k]
    in it and the value [v]. *)
Definition char_set_bit (c k : Z) (v : bool) : Z :=
  to_char (Z.lor (Z.land c (Z.lnot (to_char (Z.shiftl 1 k))))
                 (if v then to_char (Z.shiftl 1 k) else 0)).

(** Bit [j] of a buffer: bit [j mod 8], counted from the least significant
    one, of byte [j / 8].  It is defined for the padding bits of the last
    byte as well. *)
Definition bit_of (b : list Z) (j : Z) : bool :=
  match b !! Z.to_nat (j / 8) with
  | Some c => Z.testbit c (j mod 8)
  | None => false
  end.

(** A bit array as [bitarray_new] builds it and the operations keep it: the
    buffer has ceil(bit_sz / 8) bytes, each a [char]. *)
Record wf_bitarray (a : bitarray) : Prop := mk_wf {
  wf_size : is_size_t (bit_sz a);
  wf_length : bit_sz a <= 8 * Z.of_nat (length (buf a)) < bit_sz a + 8;
  wf_chars : Forall is_char (buf a)
}.

(** A decision procedure for [wf_bitarray], for concrete arrays. *)
Definition wf_bitarrayb (a : bitarray) : bool :=
  (0 <=? bit_sz a) && (bit_sz a <? SIZE_MOD)
  && (bit_sz a <=? 8 * Z.of_nat (length (buf a)))
  && (8 * Z.of_nat (length (buf a)) <? bit_sz a + 8)
  && forallb is_charb (buf a).

(** The largest modulus for which [(n % m) + m] fits a [ssize_t] whatever
    [n] is. *)
Definition MAX_LENGTH : Z := 2 ^ 62.

(** ** The mask based rotation of one byte *)

(** What [rotate_single] computes from the byte it reads, up to the store. *)
Definition rotate_char (cb beginBit endBit shiftBit : Z) : outcome Z :=
  let c := to_uchar cb in
  c1 <- clean_left (to_char c) endBit ;;
  c1 <- clean_right c1 (size_wrap (beginBit + shiftBit)) ;;
  let c1 := to_char (Z.shiftr c1 shiftBit) in
  c2 <- clean_left (to_char c) (size_wrap (8 - size_wrap (beginBit + shiftBit))) ;;
  let c2 := to_uchar c2 in
  c2 <- clean_right (to_char c2) beginBit ;;
  let c2 := to_uchar c2 in
  let left_shift := size_wrap (size_wrap (size_wrap (8 - beginBit) - shiftBit) - endBit) in
  let c2 := to_uchar (Z.rem (to_uchar (Z.shiftl (to_uchar c2) left_shift)) 256) in
  c3 <- clean_left (to_char c) (size_wrap (8 - beginBit)) ;;
  c4 <- clean_right (to_char c) (size_wrap (8 - endBit)) ;;
  Ok (to_char (to_uchar (Z.lor (Z.lor (Z.lor c1 c2) c3) c4))).

(** The bit a byte shows at position [j] once its subrange, the positions
    from [beginBit] up to [8 - endBit], is rotated by [shiftBit] towards the
    least significant bit. *)
Definition rotated_bit (cb beginBit endBit shiftBit j : Z) : bool :=
  if (beginBit <=? j) && (j <? 8 - endBit)
  then Z.testbit cb (beginBit + (j - beginBit + shiftBit) mod (8 - beginBit - endBit))
  else Z.testbit cb j.

(** The sign of [c1]: when the subrange reaches bit 7 and that bit is set,
    [c1] is negative and [c1 >> shiftBit] fills the vacated top bits with
    ones. *)
Definition sign_extends (cb endBit : Z) : bool :=
  (endBit =? 0) && Z.testbit cb 7.

(** The check run on every byte and every subrange of a byte: no table is
    read out of range, the result is a [char], the bits around the subrange
    are kept, and the subrange is rotated, except that the top [shiftBit]
    bits are ones where [c1] is negative. *)
Definition rotate_char_check (cb beginBit endBit shiftBit : Z) : bool :=
  if (1 <=? shiftBit) && (beginBit + shiftBit + endBit <? 8) then
    match rotate_char cb beginBit endBit shiftBit with
    | Ok r =>
        is_charb r &&
        all_bits (fun j =>
          if (beginBit <=? j) && (j <? 8 - endBit) then
            if sign_extends cb endBit then
              if 8 - shiftBit <=? j then Z.testbit r j
              else Bool.eqb (Z.testbit r j) (rotated_bit cb beginBit endBit shiftBit j)
            else Bool.eqb (Z.testbit r j) (rotated_bit cb beginBit endBit shiftBit j)
          else Bool.eqb (Z.testbit r j) (Z.testbit cb j))
    | Err _ => false
    end
  else true.

(** ** Rotation of a subrange *)

(** The array of [test_bitarray_rotate]: 7 bits, bit 1 set. *)
Definition ba1 : bitarray := mk_bitarray 7 [2].

(** The subrange [offset, offset + length) of [a'] is that of [a] moved [k]
    places towards higher indices, cyclically: the bit at [offset + i] of
    [a] is the bit at [offset + (i + k) mod length] of [a']. *)
Definition rotated_by (a a' : bitarray) (offset length k : Z) : Prop :=
  forall i, 0 <= i < length ->
    exists v, bitarray_get a (offset + i) = Ok v /\
              bitarray_get a' (offset + (i + k) mod length) = Ok v.

(** The padding bits, the positions from [bit_sz mod 8] on of the last
    byte, are the same in [a] and [a']. *)
Definition padding_kept (a a' : bitarray) : Prop :=
  exists c c',
    last (buf a) = Some c /\ last (buf a') = Some c' /\
    forall p, bit_sz a mod 8 <= p < 8 -> Z.testbit c' p = Z.testbit c p.

(** Inside the subrange: the old index a bit of the result comes from when
    the subrange is moved [k] places towards the lower indices. *)
Definition source_index (off len k j : Z) : Z :=
  if (off <=? j) && (j <? off + len) then off + (j - off + k) mod len else j.

(** An array the subrange [off, off + len) fits in. *)
Definition fits (off len : Z) (a : bitarray) : Prop :=
  wf_bitarray a /\ off + len <= bit_sz a.

(** [a'] comes from [a] by a move of bits: it has the shape of [a], and its
    bit [j] is the bit [src j] of [a]. *)
Definition moved (off len : Z) (a a' : bitarray) (src : Z -> Z) : Prop :=
  fits off len a' /\ bit_sz a' = bit_sz a /\
  length (buf a') = length (buf a) /\
  forall j, 0 <= j -> bit_of (buf a') j = bit_of (buf a) (src j).

(** A [char] rebuilt from its eight bits. *)
Definition char_of_bits (f : Z -> bool) : Z :=
  to_char (fold_right (fun k acc => (if f k then 2 ^ k else 0) + acc) 0
                      [0; 1; 2; 3; 4; 5; 6; 7]).

(** ** Statements about whole calls *)

(** The subrange does not end on a set bit 7 of a byte: the case in which
    [c1] of [rotate_single] is never negative. *)
Definition ends_clear (a : bitarray) (offset bit_length : Z) : Prop :=
  (offset + bit_length) mod 8 = 0 ->
  bitarray_get a (offset + bit_length - 1) = Ok false.

(** [a'] has the size of [a] and the same bytes, except possibly byte
    [k]. *)
Definition same_but_byte (k : nat) (a a' : bitarray) : Prop :=
  bit_sz a' = bit_sz a /\ length (buf a') = length (buf a) /\
  forall i, i <> k -> buf a' !! i = buf a !! i.

(** * Properties *)

(** Goals about the ranges of the machine types. *)
Ltac machine_range :=
  unfold is_size_t, is_ssize_t, is_char, MAX_LENGTH, SIZE_MOD,
         SSIZE_MIN, SSIZE_MAX in *;
  lia.

(** ** Exhaustive checks over bytes and bit positions *)

Lemma all_from_sound (n : nat) (lo : Z) (p : Z -> bool) :
  all_from n lo p = true ->
  forall z, lo <= z < lo + Z.of_nat n -> p z = true.
Proof.
  revert lo. induction n as [|n IH]; intros lo H z Hz; [lia|].
  cbn [all_from] in H. apply andb_true_iff in H as [Hlo Hrest].
  destruct (Z.eq_dec z lo) as [->|Hne]; [exact Hlo|].
  apply (IH (lo + 1) Hrest). lia.
Qed.

Lemma all_chars_sound (p : Z -> bool) :
  all_chars p = true -> forall c, is_char c -> p c = true.
Proof.
  intros H c Hc. apply (all_from_sound 256 (-128) p H). unfold is_char in Hc. lia.
Qed.

Lemma all_bits_sound (p : Z -> bool) :
  all_bits p = true -> forall k, 0 <= k < 8 -> p k = true.
Proof.
  intros H k Hk. apply (all_from_sound 8 0 p H). lia.
Qed.

Lemma is_charb_spec (c : Z) : is_charb c = true <-> is_char c.
Proof. unfold is_charb, is_char. rewrite andb_true_iff. lia. Qed.

Lemma to_char_is_char (z : Z) : is_char (to_char z).
Proof.
  unfold is_char, to_char. pose proof (Z.mod_pos_bound (z + 128) 256). lia.
Qed.

(** ** Machine integers *)

Lemma size_wrap_small (z : Z) : is_size_t z -> size_wrap z = z.
Proof. unfold is_size_t, size_wrap. intros H. apply Z.mod_small. exact H. Qed.

Lemma ssize_wrap_small (z : Z) : is_ssize_t z -> ssize_wrap z = z.
Proof.
  unfold is_ssize_t, ssize_wrap, SSIZE_MIN, SSIZE_MAX, SIZE_MOD. intros H.
  rewrite Z.mod_small; lia.
Qed.

(** ** One byte: reading and writing a bit *)

Lemma bitmask_mod (i : Z) : bitmask i = to_char (Z.shiftl 1 (i mod 8)).
Proof. reflexivity. Qed.

Lemma char_get_bit (c k : Z) :
  is_char c -> 0 <= k < 8 ->
  negb (Z.land c (to_char (Z.shiftl 1 k)) =? 0) = Z.testbit c k.
Proof.
  intros Hc Hk.
  assert (H : all_chars (fun c => all_bits (fun k =>
            Bool.eqb (negb (Z.land c (to_char (Z.shiftl 1 k)) =? 0))
                     (Z.testbit c k))) = true) by (vm_compute; reflexivity).
  apply Bool.eqb_prop.
  exact (all_bits_sound _ (all_chars_sound _ H c Hc) k Hk).
Qed.

Lemma char_set_bit_testbit (c k : Z) (v : bool) (j : Z) :
  is_char c -> 0 <= k < 8 -> 0 <= j < 8 ->
  Z.testbit (char_set_bit c k v) j = if j =? k then v else Z.testbit c j.
Proof.
  intros Hc Hk Hj.
  assert (H : all_chars (fun c => all_bits (fun k => all_bits (fun j =>
            Bool.eqb (Z.testbit (char_set_bit c k true) j)
                     (if j =? k then true else Z.testbit c j)
            && Bool.eqb (Z.testbit (char_set_bit c k false) j)
                        (if j =? k then false else Z.testbit c j)))) = true)
    by (vm_compute; reflexivity).
  pose proof (all_bits_sound _ (all_bits_sound _ (all_chars_sound _ H c Hc) k Hk) j Hj) as E.
  apply andb_true_iff in E as [Et Ef].
  destruct v; apply Bool.eqb_prop; assumption.
Qed.

(** ** The buffer as a sequence of bits *)

Lemma buf_index_in_range (a : bitarray) (j : Z) :
  wf_bitarray a -> 0 <= j < bit_sz a ->
  (Z.to_nat (j / 8) < length (buf a))%nat.
Proof.
  intros [_ Hlen _] Hj.
  assert (0 <= j / 8 < Z.of_nat (length (buf a))) by (Z.div_mod_to_equations; lia).
  lia.
Qed.

Lemma buf_at_in_range (a : bitarray) (j : Z) :
  wf_bitarray a -> 0 <= j < bit_sz a ->
  exists c, buf a !! Z.to_nat (j / 8) = Some c /\ is_char c /\
            buf_at a (j / 8) = Ok c.
Proof.
  intros Hwf Hj.
  destruct (lookup_lt_is_Some_2 (buf a) _ (buf_index_in_range a j Hwf Hj)) as [c Hc].
  exists c. split; [exact Hc|]. split.
  - exact (Forall_lookup_1 _ _ _ _ (wf_chars a Hwf) Hc).
  - unfold buf_at. rewrite Hc. reflexivity.
Qed.

Lemma div8_to_nat_inj (i j : Z) :
  0 <= i -> 0 <= j -> Z.to_nat (i / 8) = Z.to_nat (j / 8) -> i / 8 = j / 8.
Proof.
  intros Hi Hj H.
  assert (0 <= i / 8) by (apply Z.div_pos; lia).
  assert (0 <= j / 8) by (apply Z.div_pos; lia).
  lia.
Qed.

(** [bitarray_get] reads the bit [bit_of] names. *)
Lemma bitarray_get_bit_of (a : bitarray) (j : Z) :
  wf_bitarray a -> 0 <= j < bit_sz a ->
  bitarray_get a j = Ok (bit_of (buf a) j).
Proof.
  intros Hwf Hj.
  destruct (buf_at_in_range a j Hwf Hj) as (c & Hc & Hchar & Hat).
  unfold bitarray_get, bit_of.
  destruct (Z.ltb_spec j (bit_sz a)) as [_|]; [|lia].
  rewrite Hat, Hc. cbn [bind]. rewrite bitmask_mod.
  rewrite char_get_bit by (auto; apply Z.mod_pos_bound; lia).
  reflexivity.
Qed.

(** [bitarray_set] returns, keeps the shape of the array and changes the
    addressed bit only. *)
Lemma bitarray_set_spec (a : bitarray) (j : Z) (v : bool) :
  wf_bitarray a -> 0 <= j < bit_sz a ->
  exists a',
    bitarray_set a j v = Ok a' /\ wf_bitarray a' /\
    bit_sz a' = bit_sz a /\ length (buf a') = length (buf a) /\
    forall j', 0 <= j' ->
      bit_of (buf a') j' = if j' =? j then v else bit_of (buf a) j'.
Proof.
  intros Hwf Hj.
  destruct (buf_at_in_range a j Hwf Hj) as (c & Hc & Hchar & Hat).
  pose proof (buf_index_in_range a j Hwf Hj) as Hidx.
  assert (Hk : 0 <= j mod 8 < 8) by (apply Z.mod_pos_bound; lia).
  exists (mk_bitarray (bit_sz a) (<[Z.to_nat (j / 8) := char_set_bit c (j mod 8) v]> (buf a))).
  split; [|split; [|split; [|split]]].
  - unfold bitarray_set, buf_store.
    destruct (Z.ltb_spec j (bit_sz a)) as [_|]; [|lia].
    rewrite Hat. cbn [bind].
    destruct (Nat.ltb_spec (Z.to_nat (j / 8)) (length (buf a))) as [_|]; [|lia].
    reflexivity.
  - destruct Hwf as [Hs Hl Hf]. constructor; cbn [bit_sz buf].
    + exact Hs.
    + rewrite length_insert. exact Hl.
    + apply Forall_insert; [exact Hf|]. apply to_char_is_char.
  - reflexivity.
  - cbn [buf]. apply length_insert.
  - intros j' Hj'. cbn [buf]. unfold bit_of.
    destruct (Nat.eq_dec (Z.to_nat (j / 8)) (Z.to_nat (j' / 8))) as [E|NE].
    + rewrite <- E, list_lookup_insert_eq by exact Hidx. rewrite Hc.
      apply div8_to_nat_inj in E; [|lia|lia].
      rewrite char_set_bit_testbit by (auto; apply Z.mod_pos_bound; lia).
      destruct (Z.eqb_spec (j' mod 8) (j mod 8)) as [Em|Nm];
        destruct (Z.eqb_spec j' j) as [Ej|Nj]; try reflexivity.
      * exfalso. apply Nj.
        rewrite (Z.div_mod j' 8), (Z.div_mod j 8) by lia. lia.
      * exfalso. apply Nm. subst j'. reflexivity.
    + rewrite list_lookup_insert_ne by exact NE.
      destruct (Z.eqb_spec j' j) as [Ej|Nj]; [|reflexivity].
      exfalso. apply NE. subst j'. reflexivity.
Qed.

Lemma wf_bitarrayb_sound (a : bitarray) :
  wf_bitarrayb a = true -> wf_bitarray a.
Proof.
  unfold wf_bitarrayb. rewrite !andb_true_iff.
  intros [[[[H0 H1] H2] H3] H4]. constructor.
  - unfold is_size_t. lia.
  - lia.
  - apply Forall_forall. intros c Hc. apply is_charb_spec.
    rewrite forallb_forall in H4. apply H4. apply list_elem_of_In. exact Hc.
Qed.

(** ** Index and mask helpers *)

Lemma modulo_correct (n m : Z) :
  1 <= m <= MAX_LENGTH -> is_ssize_t n -> modulo n m = Ok (n mod m).
Proof.
  unfold MAX_LENGTH, is_ssize_t, SSIZE_MIN, SSIZE_MAX. intros Hm Hn.
  assert (Hrem : - m < Z.rem n m < m).
  { pose proof (Z.rem_bound_abs n m ltac:(lia)). lia. }
  assert (Hsum : Z.rem n m + m = n + (1 - Z.quot n m) * m).
  { pose proof (Z.quot_rem' n m). lia. }
  pose proof (Z.mod_pos_bound n m ltac:(lia)) as Hmod.
  unfold modulo.
  rewrite (ssize_wrap_small m)
    by (unfold is_ssize_t, SSIZE_MIN, SSIZE_MAX; lia).
  destruct (Z.ltb_spec 0 m) as [_|]; [|lia].
  rewrite (ssize_wrap_small (Z.rem n m + m))
    by (unfold is_ssize_t, SSIZE_MIN, SSIZE_MAX; lia).
  rewrite Z.rem_mod_nonneg by lia.
  rewrite Hsum, Z.mod_add by lia.
  destruct (Z.leb_spec 0 (n mod m)) as [_|]; [|lia].
  rewrite size_wrap_small by (unfold is_size_t, SIZE_MOD; lia).
  reflexivity.
Qed.

Lemma get_shift_correct (bit_length amount : Z) :
  1 <= bit_length <= MAX_LENGTH -> is_ssize_t amount ->
  get_shift bit_length amount = Ok (amount mod bit_length).
Proof.
  intros Hm Hn. unfold get_shift. rewrite modulo_correct by assumption.
  cbn [bind].
  pose proof (Z.mod_pos_bound amount bit_length ltac:(lia)) as Hmod.
  unfold MAX_LENGTH in Hm.
  rewrite ssize_wrap_small
    by (unfold is_ssize_t, SSIZE_MIN, SSIZE_MAX; lia).
  destruct (Z.ltb_spec (amount mod bit_length) 0) as [|_]; [lia|].
  reflexivity.
Qed.

(** C9, as stated, fails: not every length from 1 on is served.  For the
    length 2^62 + 1 and the amount 2^62 the sum [(n % m) + m] of [modulo]
    leaves the range of [ssize_t] and its second [assert] fails; for the
    length 2^63, which is not a positive [ssize_t], the first one fails.  No
    value is returned in either case. *)
Lemma get_shift_counterexample :
  (1 <= 2 ^ 62 + 1 /\ is_ssize_t (2 ^ 62) /\
   get_shift (2 ^ 62 + 1) (2 ^ 62) = Err AssertFailed) /\
  (1 <= 2 ^ 63 /\ is_size_t (2 ^ 63) /\ is_ssize_t 1 /\
   get_shift (2 ^ 63) 1 = Err AssertFailed).
Proof.
  split.
  - split; [lia|]. split; [machine_range|reflexivity].
  - split; [lia|]. split; [machine_range|]. split; [machine_range|reflexivity].
Qed.

(** C9, amended: for a length between 1 and 2^62 and a [ssize_t] amount,
    [get_shift] returns the non-negative remainder of the amount modulo the
    length: a value [r] with [0 <= r < length] that is congruent to the
    amount, also for a negative amount, and that is 0 for every multiple of
    the length. *)
Theorem get_shift_normalizes (bit_length amount : Z) :
  1 <= bit_length <= MAX_LENGTH -> is_ssize_t amount ->
  exists r,
    get_shift bit_length amount = Ok r /\
    0 <= r < bit_length /\
    r = amount mod bit_length /\
    (exists q, amount = q * bit_length + r) /\
    (forall k, amount = k * bit_length -> r = 0).
Proof.
  intros Hm Hn. exists (amount mod bit_length).
  split; [apply get_shift_correct; assumption|].
  split; [apply Z.mod_pos_bound; lia|].
  split; [reflexivity|]. split.
  - exists (amount / bit_length).
    pose proof (Z.div_mod amount bit_length ltac:(lia)). lia.
  - intros k ->. apply Z.mod_mul. lia.
Qed.

Lemma get_shift_normalizes_witness :
  exists r,
    get_shift 5 (-7) = Ok r /\ 0 <= r < 5 /\ r = (-7) mod 5 /\
    (exists q, -7 = q * 5 + r) /\ (forall k, -7 = k * 5 -> r = 0).
Proof.
  apply (get_shift_normalizes 5 (-7)).
  - machine_range.
  - machine_range.
Defined.

(** ** Storage *)

(** C6: on an array of the shape [bitarray_new] builds, [bitarray_set] at a
    valid index returns, [bitarray_get] at that index then returns the value
    written, and at every other valid index the value it returned before. *)
Theorem bitarray_set_get (a : bitarray) (index : Z) (value : bool) :
  wf_bitarray a -> 0 <= index < bit_sz a ->
  exists a',
    bitarray_set a index value = Ok a' /\
    bit_sz a' = bit_sz a /\
    bitarray_get a' index = Ok value /\
    forall j, 0 <= j < bit_sz a -> j <> index ->
      exists v, bitarray_get a j = Ok v /\ bitarray_get a' j = Ok v.
Proof.
  intros Hwf Hi.
  destruct (bitarray_set_spec a index value Hwf Hi)
    as (a' & Hset & Hwf' & Hsz & _ & Hbits).
  exists a'. split; [exact Hset|]. split; [exact Hsz|]. split.
  - rewrite bitarray_get_bit_of by (auto; lia).
    rewrite Hbits by lia. rewrite Z.eqb_refl. reflexivity.
  - intros j Hj Hne. exists (bit_of (buf a) j).
    rewrite !bitarray_get_bit_of by (auto; lia).
    rewrite Hbits by lia.
    destruct (Z.eqb_spec j index); [contradiction|]. split; reflexivity.
Qed.

Lemma bitarray_set_get_witness :
  exists a',
    bitarray_set (mk_bitarray 16 [2; 0]) 14 true = Ok a' /\
    bit_sz a' = 16 /\
    bitarray_get a' 14 = Ok true /\
    forall j, 0 <= j < 16 -> j <> 14 ->
      exists v, bitarray_get (mk_bitarray 16 [2; 0]) j = Ok v /\
                bitarray_get a' j = Ok v.
Proof.
  apply (bitarray_set_get (mk_bitarray 16 [2; 0]) 14 true).
  - apply wf_bitarrayb_sound. reflexivity.
  - simpl. lia.
Defined.

Lemma bitarray_new_bytes (n : Z) :
  0 <= n ->
  n <= 8 * (n / 8 + (if n mod 8 =? 0 then 0 else 1)) < n + 8.
Proof.
  intros Hn. destruct (Z.eqb_spec (n mod 8) 0); Z.div_mod_to_equations; lia.
Qed.

(** The arrays [bitarray_new] builds are the well-formed ones whose bytes
    are zero. *)
Lemma bitarray_new_wf (n : Z) (a : bitarray) :
  is_size_t n -> bitarray_new true true n = Some a ->
  wf_bitarray a /\ bit_sz a = n /\ Forall (fun c => c = 0) (buf a).
Proof.
  intros Hn H. unfold bitarray_new in H. injection H as <-.
  pose proof (bitarray_new_bytes n ltac:(unfold is_size_t in Hn; lia)) as Hbytes.
  rewrite size_wrap_small by machine_range.
  split; [|split; [reflexivity|apply Forall_replicate; reflexivity]].
  constructor; cbn [buf bit_sz].
  - exact Hn.
  - rewrite length_replicate, Z2Nat.id by machine_range. exact Hbytes.
  - apply Forall_replicate. unfold is_char. lia.
Qed.

(** C7: when both allocations succeed, [bitarray_new n] is an array of [n]
    bits over ceil(n / 8) bytes (the least count whose bits cover [n]; none
    for [n = 0]), all of them zero, and [bitarray_get] returns false at
    every index below [n]. *)
Theorem bitarray_new_zeroed (n : Z) :
  is_size_t n ->
  exists a,
    bitarray_new true true n = Some a /\
    bit_sz a = n /\
    n <= 8 * Z.of_nat (length (buf a)) < n + 8 /\
    Forall (fun c => c = 0) (buf a) /\
    forall i, 0 <= i < n -> bitarray_get a i = Ok false.
Proof.
  intros Hn.
  destruct (bitarray_new true true n) as [a|] eqn:Hnew; [|discriminate].
  destruct (bitarray_new_wf n a Hn Hnew) as (Hwf & Hsz & Hzero).
  exists a. split; [reflexivity|]. split; [exact Hsz|].
  split; [rewrite <- Hsz; exact (wf_length a Hwf)|]. split; [exact Hzero|].
  intros i Hi. rewrite bitarray_get_bit_of by (auto; lia).
  unfold bit_of. destruct (buf a !! Z.to_nat (i / 8)) as [c|] eqn:E; [|reflexivity].
  rewrite (Forall_lookup_1 _ _ _ _ Hzero E), Z.testbit_0_l. reflexivity.
Qed.

Lemma bitarray_new_zeroed_witness :
  exists a,
    bitarray_new true true 13 = Some a /\
    bit_sz a = 13 /\
    13 <= 8 * Z.of_nat (length (buf a)) < 13 + 8 /\
    Forall (fun c => c = 0) (buf a) /\
    forall i, 0 <= i < 13 -> bitarray_get a i = Ok false.
Proof.
  apply (bitarray_new_zeroed 13). machine_range.
Defined.

(** ** One byte: the mask based rotation *)

Lemma rotate_single_char (a : bitarray) (charIndex beginBit endBit shiftBit : Z) :
  rotate_single a charIndex beginBit endBit shiftBit =
  (cb <- buf_at a charIndex ;;
   r <- rotate_char cb beginBit endBit shiftBit ;;
   buf_store a charIndex r).
Proof.
  unfold rotate_single, rotate_char.
  destruct (buf_at a charIndex) as [cb|]; [|reflexivity]. cbn [bind].
  repeat match goal with
         | |- context [bind ?x _] =>
             lazymatch x with
             | bind _ _ => fail
             | _ => destruct x; cbn [bind]; try reflexivity
             end
         end.
Qed.

Lemma rotate_char_check_all :
  all_chars (fun cb => all_bits (fun b => all_bits (fun e => all_bits (fun s =>
    rotate_char_check cb b e s)))) = true.
Proof. vm_compute. reflexivity. Qed.

(** [rotate_char] on a subrange of at least two bits inside the byte and a
    shift smaller than the subrange: no table is read out of range, the
    bits around the subrange are kept, and the subrange is rotated unless
    the sign of [c1] gets in the way. *)
Lemma rotate_char_spec (cb beginBit endBit shiftBit : Z) :
  is_char cb -> 0 <= beginBit -> 0 <= endBit -> 1 <= shiftBit ->
  beginBit + shiftBit + endBit < 8 ->
  exists r,
    rotate_char cb beginBit endBit shiftBit = Ok r /\ is_char r /\
    forall j, 0 <= j < 8 ->
      (j < beginBit \/ 8 - endBit <= j -> Z.testbit r j = Z.testbit cb j) /\
      (beginBit <= j < 8 - endBit -> sign_extends cb endBit = false ->
       Z.testbit r j = rotated_bit cb beginBit endBit shiftBit j) /\
      (beginBit <= j < 8 - endBit -> sign_extends cb endBit = true ->
       Z.testbit r j = if 8 - shiftBit <=? j then true
                       else rotated_bit cb beginBit endBit shiftBit j).
Proof.
  intros Hc Hb He Hs Hsum.
  pose proof (all_bits_sound _ (all_bits_sound _ (all_bits_sound _
    (all_chars_sound _ rotate_char_check_all cb Hc)
    beginBit ltac:(lia)) endBit ltac:(lia)) shiftBit ltac:(lia)) as H.
  unfold rotate_char_check in H.
  destruct (Z.leb_spec 1 shiftBit); [|lia].
  destruct (Z.ltb_spec (beginBit + shiftBit + endBit) 8); [|lia].
  cbn [andb] in H.
  destruct (rotate_char cb beginBit endBit shiftBit) as [r|]; [|discriminate].
  apply andb_true_iff in H as [Hr Hbits].
  exists r. split; [reflexivity|]. split; [apply is_charb_spec; exact Hr|].
  intros j Hj. pose proof (all_bits_sound _ Hbits j Hj) as Hbit. cbv beta in Hbit.
  destruct (Z.leb_spec beginBit j); destruct (Z.ltb_spec j (8 - endBit));
    cbn [andb] in Hbit.
  all: repeat split; intros; try lia.
  all: try (apply Bool.eqb_prop; exact Hbit).
  - match goal with E : sign_extends _ _ = false |- _ => rewrite E in Hbit end.
    apply Bool.eqb_prop. exact Hbit.
  - match goal with E : sign_extends _ _ = true |- _ => rewrite E in Hbit end.
    destruct (Z.leb_spec (8 - shiftBit) j); [exact Hbit|].
    apply Bool.eqb_prop. exact Hbit.
Qed.

(** ** The mask based rotation on the array *)

Lemma bit_of_insert (b : list Z) (ci : nat) (r : Z) (j : Z) :
  (ci < length b)%nat ->
  bit_of (<[ci := r]> b) j =
  if (Z.to_nat (j / 8) =? ci)%nat then Z.testbit r (j mod 8) else bit_of b j.
Proof.
  intros Hci. unfold bit_of.
  destruct (Nat.eqb_spec (Z.to_nat (j / 8)) ci) as [->|Hne].
  - rewrite list_lookup_insert_eq by exact Hci. reflexivity.
  - rewrite list_lookup_insert_ne by congruence. reflexivity.
Qed.

(** A subrange of at least two bits that lies in one byte. *)
Lemma single_byte_bits (off len : Z) :
  0 <= off -> 2 <= len -> off / 8 = (off + len - 1) / 8 ->
  off mod 8 + len <= 8.
Proof. intros. Z.div_mod_to_equations. lia. Qed.

Lemma get_end_bit_single_byte (off len : Z) :
  0 <= off -> 2 <= len -> off + len < SIZE_MOD ->
  off / 8 = (off + len - 1) / 8 ->
  get_end_bit off len = 8 - off mod 8 - len.
Proof.
  intros Hoff Hlen Hsum Hbyte.
  pose proof (single_byte_bits off len Hoff Hlen Hbyte) as Hfit.
  pose proof (Z.mod_pos_bound off 8 ltac:(lia)) as Hb.
  unfold get_end_bit.
  rewrite (size_wrap_small (off + len)) by (unfold is_size_t; lia).
  assert (E : (off + len) mod 8 = (off mod 8 + len) mod 8).
  { rewrite (Z.add_mod off len), (Z.add_mod (off mod 8) len), Z.mod_mod by lia.
    reflexivity. }
  rewrite E.
  destruct (Z.eq_dec (off mod 8 + len) 8) as [E8|N8].
  - rewrite E8. change (8 mod 8) with 0. change (size_wrap (8 - 0) mod 8) with 0. lia.
  - rewrite (Z.mod_small (off mod 8 + len)) by lia.
    rewrite size_wrap_small by (unfold is_size_t, SIZE_MOD; lia).
    rewrite Z.mod_small; lia.
Qed.

(** The path [bitarray_rotate] takes on a valid subrange of at least two
    bits: it returns at once when the shift is 0 or the subrange leaves its
    first byte, and hands the byte to [rotate_single] otherwise. *)
Lemma bitarray_rotate_path (a : bitarray) (off len amount : Z) :
  is_size_t (bit_sz a) -> 0 <= off -> 2 <= len <= MAX_LENGTH ->
  off + len <= bit_sz a -> is_ssize_t amount ->
  bitarray_rotate a off len amount =
  if amount mod len =? 0 then Ok a
  else if off / 8 =? (off + len - 1) / 8
       then rotate_single a (off / 8) (off mod 8) (get_end_bit off len)
                          (Z.rem (amount mod len) 8)
       else Ok a.
Proof.
  intros Hsz Hoff Hlen Hfit Hamount. unfold is_size_t in Hsz.
  unfold bitarray_rotate.
  rewrite (size_wrap_small (off + len)) by (unfold is_size_t; lia).
  destruct (Z.gtb_spec (off + len) (bit_sz a)); [lia|].
  destruct (Z.eqb_spec len 0); [lia|]. destruct (Z.eqb_spec len 1); [lia|].
  cbn [orb]. rewrite get_shift_correct by (auto; lia). cbn [bind].
  destruct (amount mod len =? 0); [reflexivity|].
  unfold get_char_index.
  rewrite (size_wrap_small (off + len - 1)) by (unfold is_size_t; lia).
  reflexivity.
Qed.

(** What a valid call of [bitarray_rotate] does: it returns an array of
    the same shape whose bits outside the subrange are the old ones; and
    when the subrange lies in one byte and the sign of [c1] does not get in
    the way, bit [j] of the subrange is the old bit [shift] places further
    up, cyclically. *)
Lemma bitarray_rotate_spec (a : bitarray) (off len amount : Z) :
  wf_bitarray a -> 0 <= off -> 0 <= len <= MAX_LENGTH ->
  off + len <= bit_sz a -> is_ssize_t amount ->
  exists a',
    bitarray_rotate a off len amount = Ok a' /\ wf_bitarray a' /\
    bit_sz a' = bit_sz a /\ length (buf a') = length (buf a) /\
    (forall j, 0 <= j -> ~ (off <= j < off + len) ->
       bit_of (buf a') j = bit_of (buf a) j) /\
    (off / 8 = (off + len - 1) / 8 ->
     ((off + len) mod 8 = 0 -> bit_of (buf a) (off + len - 1) = false) ->
     forall j, off <= j < off + len ->
       bit_of (buf a') j = bit_of (buf a) (off + (j - off + amount mod len) mod len)).
Proof.
  intros Hwf Hoff Hlen Hfit Hamount.
  assert (Hsame : forall j, off <= j < off + len ->
            bit_of (buf a) j = bit_of (buf a) (off + (j - off + 0) mod len)).
  { intros j Hj. rewrite Z.add_0_r, Z.mod_small by lia. f_equal. lia. }
  assert (Hid : forall s, s = 0 -> exists a',
    Ok a = Ok a' /\ wf_bitarray a' /\
    bit_sz a' = bit_sz a /\ length (buf a') = length (buf a) /\
    (forall j, 0 <= j -> ~ (off <= j < off + len) ->
       bit_of (buf a') j = bit_of (buf a) j) /\
    (off / 8 = (off + len - 1) / 8 ->
     ((off + len) mod 8 = 0 -> bit_of (buf a) (off + len - 1) = false) ->
     forall j, off <= j < off + len ->
       bit_of (buf a') j = bit_of (buf a) (off + (j - off + s) mod len))).
  { intros s ->. exists a.
    split; [reflexivity|]. split; [exact Hwf|]. split; [reflexivity|].
    split; [reflexivity|]. split; [reflexivity|].
    intros _ _ j Hj. apply Hsame. exact Hj. }
  destruct (Z_lt_dec len 2) as [Hshort|Hlong].
  - (* length 0 or 1 *)
    assert (E : bitarray_rotate a off len amount = Ok a).
    { unfold bitarray_rotate.
      rewrite (size_wrap_small (off + len))
        by (pose proof (wf_size a Hwf); unfold is_size_t in *; lia).
      destruct (Z.gtb_spec (off + len) (bit_sz a)); [lia|].
      destruct (Z.eqb_spec len 0); [reflexivity|].
      destruct (Z.eqb_spec len 1); [reflexivity|lia]. }
    rewrite E. destruct (Z.eq_dec len 0) as [->|].
    + exists a.
      split; [reflexivity|]. split; [exact Hwf|]. split; [reflexivity|].
      split; [reflexivity|]. split; [reflexivity|]. intros _ _ j Hj. lia.
    + apply Hid. replace len with 1 by lia. apply Z.mod_1_r.
  - rewrite bitarray_rotate_path by (auto using wf_size; lia).
    pose proof (Z.mod_pos_bound amount len ltac:(lia)) as Hs.
    destruct (Z.eqb_spec (amount mod len) 0) as [Hs0|Hs0]; [apply Hid; exact Hs0|].
    destruct (Z.eqb_spec (off / 8) ((off + len - 1) / 8)) as [Hbyte|Hbyte].
    2:{ exists a.
        split; [reflexivity|]. split; [exact Hwf|]. split; [reflexivity|].
        split; [reflexivity|]. split; [reflexivity|]. intros; contradiction. }
    pose proof (single_byte_bits off len Hoff ltac:(lia) Hbyte) as Hbits.
    pose proof (Z.mod_pos_bound off 8 ltac:(lia)) as Hb.
    rewrite get_end_bit_single_byte
      by (auto; pose proof (wf_size a Hwf); unfold is_size_t in *; lia).
    rewrite Z.rem_small by lia.
    set (s := amount mod len) in *. set (b := off mod 8) in *.
    destruct (buf_at_in_range a off Hwf ltac:(lia)) as (cb & Hcb & Hchar & Hat).
    pose proof (buf_index_in_range a off Hwf ltac:(lia)) as Hidx.
    destruct (rotate_char_spec cb b (8 - b - len) s Hchar ltac:(lia) ltac:(lia)
                ltac:(lia) ltac:(lia)) as (r & Hr & Hrchar & Hrbits).
    exists (mk_bitarray (bit_sz a) (<[Z.to_nat (off / 8) := r]> (buf a))).
    split.
    { rewrite rotate_single_char, Hat. cbn [bind]. rewrite Hr. cbn [bind].
      unfold buf_store.
      destruct (Nat.ltb_spec (Z.to_nat (off / 8)) (length (buf a))); [|lia].
      reflexivity. }
    split.
    { destruct Hwf as [W1 W2 W3]. constructor; cbn [bit_sz buf].
      - exact W1.
      - rewrite length_insert. exact W2.
      - apply Forall_insert; assumption. }
    split; [reflexivity|]. split; [apply length_insert|]. cbn [buf].
    assert (Hin : forall j, 0 <= j -> Z.to_nat (j / 8) = Z.to_nat (off / 8) ->
              j / 8 = off / 8 /\ 0 <= j mod 8 < 8 /\ j = 8 * (off / 8) + j mod 8 /\
              bit_of (buf a) j = Z.testbit cb (j mod 8)).
    { intros j Hj E. apply div8_to_nat_inj in E; [|lia|lia].
      split; [exact E|]. split; [apply Z.mod_pos_bound; lia|]. split.
      - rewrite <- E. apply Z.div_mod. lia.
      - unfold bit_of. rewrite E, Hcb. reflexivity. }
    assert (Hoffb : off = 8 * (off / 8) + b) by (apply Z.div_mod; lia).
    split.
    + intros j Hj Hout. rewrite bit_of_insert by exact Hidx.
      destruct (Nat.eqb_spec (Z.to_nat (j / 8)) (Z.to_nat (off / 8))) as [E|NE];
        [|reflexivity].
      destruct (Hin j Hj E) as (Ediv & Hm & Ej & Hold). rewrite Hold.
      apply (Hrbits (j mod 8) Hm). lia.
    + intros _ Hsign j Hj. rewrite bit_of_insert by exact Hidx.
      assert (Ediv : j / 8 = off / 8) by (Z.div_mod_to_equations; lia).
      rewrite Ediv, Nat.eqb_refl.
      assert (Hm : 0 <= j mod 8 < 8) by (apply Z.mod_pos_bound; lia).
      assert (Ej : j = 8 * (off / 8) + j mod 8)
        by (rewrite <- Ediv; apply Z.div_mod; lia).
      assert (Hnosign : sign_extends cb (8 - b - len) = false).
      { unfold sign_extends. destruct (Z.eqb_spec (8 - b - len) 0) as [E0|]; [|reflexivity].
        cbn [andb]. rewrite <- Hsign.
        - unfold bit_of.
          replace ((off + len - 1) / 8) with (off / 8) by exact Hbyte.
          rewrite Hcb. f_equal. Z.div_mod_to_equations. lia.
        - Z.div_mod_to_equations. lia. }
      destruct (Hrbits (j mod 8) Hm) as (_ & Hrot & _).
      rewrite Hrot by (auto; lia). unfold rotated_bit.
      destruct (Z.leb_spec b (j mod 8)); [|lia].
      destruct (Z.ltb_spec (j mod 8) (8 - (8 - b - len))); [|lia].
      cbn [andb].
      replace (8 - b - (8 - b - len)) with len by lia.
      replace (j mod 8 - b) with (j - off) by lia.
      pose proof (Z.mod_pos_bound (j - off + s) len ltac:(lia)) as Hk.
      set (k := (j - off + s) mod len) in *.
      unfold bit_of.
      assert (Ek : (off + k) / 8 = off / 8) by (Z.div_mod_to_equations; lia).
      rewrite Ek, Hcb. f_equal. Z.div_mod_to_equations. lia.
Qed.

(** ** Rotation: what a call of [bitarray_rotate] does *)

(** C1, as stated, fails: on the 7-bit array with bit 1 set,
    [bitarray_rotate a 0 7 1] returns the array with bit 0 set (the result
    [test_bitarray_rotate] asks for), so the bit that was at index 1 is not
    at index 1 + 1 afterwards. *)
Lemma rotate_right_counterexample :
  0 + 7 <= bit_sz ba1 /\
  exists a' shift,
    bitarray_rotate ba1 0 7 1 = Ok a' /\ get_shift 7 1 = Ok shift /\
    ~ rotated_by ba1 a' 0 7 shift.
Proof.
  split; [cbn; lia|]. exists (mk_bitarray 7 [1]), 1.
  split; [reflexivity|]. split; [reflexivity|].
  intros H. destruct (H 1 ltac:(lia)) as (v & Hv & Hv').
  vm_compute in Hv, Hv'. congruence.
Qed.

(** C1, amended: on a valid subrange of at least one bit that lies in one
    byte and does not end on a set bit 7 of that byte, [bitarray_rotate]
    returns, and the bit that was at index [offset + i] is at index
    [offset + (i - shift) mod length] afterwards, for
    [shift = get_shift length amount]: the subrange is rotated by [shift]
    places towards the lower indices. *)
Theorem bitarray_rotate_single_byte (a : bitarray) (offset length amount : Z) :
  wf_bitarray a -> 0 <= offset -> 1 <= length <= MAX_LENGTH ->
  offset + length <= bit_sz a -> is_ssize_t amount ->
  offset / 8 = (offset + length - 1) / 8 ->
  ((offset + length) mod 8 = 0 -> bitarray_get a (offset + length - 1) = Ok false) ->
  exists a' shift,
    bitarray_rotate a offset length amount = Ok a' /\
    get_shift length amount = Ok shift /\
    rotated_by a a' offset length (- shift).
Proof.
  intros Hwf Hoff Hlen Hfit Hamount Hbyte Hsign.
  destruct (bitarray_rotate_spec a offset length amount Hwf Hoff ltac:(lia) Hfit Hamount)
    as (a' & Hrot & Hwf' & Hsz & _ & _ & Hin).
  exists a', (amount mod length).
  split; [exact Hrot|]. split; [apply get_shift_correct; assumption|].
  intros i Hi. exists (bit_of (buf a) (offset + i)).
  split; [apply bitarray_get_bit_of; [exact Hwf|lia]|].
  pose proof (Z.mod_pos_bound (i + - (amount mod length)) length ltac:(lia)) as Hk.
  rewrite bitarray_get_bit_of by (auto; lia).
  set (s := amount mod length) in *. set (k := (i + - s) mod length) in *.
  assert (Eback : (offset + k - offset + s) mod length = i).
  { replace (offset + k - offset + s) with (k + s) by lia. subst k.
    rewrite Z.add_mod_idemp_l by lia.
    replace (i + - s + s) with i by lia. apply Z.mod_small. lia. }
  rewrite Hin; [|exact Hbyte| |lia].
  - rewrite Eback. reflexivity.
  - intros E. specialize (Hsign E).
    rewrite bitarray_get_bit_of in Hsign by (auto; lia). congruence.
Qed.

Lemma bitarray_rotate_single_byte_witness :
  exists a' shift,
    bitarray_rotate (mk_bitarray 8 [86]) 2 6 1 = Ok a' /\
    get_shift 6 1 = Ok shift /\
    rotated_by (mk_bitarray 8 [86]) a' 2 6 (- shift).
Proof.
  apply (bitarray_rotate_single_byte (mk_bitarray 8 [86]) 2 6 1).
  - apply wf_bitarrayb_sound. reflexivity.
  - lia.
  - machine_range.
  - simpl. lia.
  - machine_range.
  - reflexivity.
  - intros _. reflexivity.
Defined.

(** C2, as stated, fails: [bitarray_rotate ba1 0 8 1] asks for 8 bits of a
    7-bit array and returns normally, with the array as it was (the result
    [test_bitarray_rotate] asks for); nothing is reported. *)
Lemma rotate_out_of_range_counterexample :
  bit_sz ba1 < 0 + 8 /\
  bitarray_rotate ba1 0 8 1 = Ok ba1 /\
  forall f, bitarray_rotate ba1 0 8 1 <> Err f.
Proof.
  split; [cbn; lia|]. split; [reflexivity|]. intros f H. discriminate H.
Qed.

(** C2, amended: a call of [bitarray_rotate] whose subrange ends beyond
    [bit_sz] (the end being a [size_t]) returns normally and leaves the
    array as it was; no error is reported. *)
Theorem bitarray_rotate_out_of_range (a : bitarray) (offset length amount : Z) :
  is_size_t (offset + length) -> bit_sz a < offset + length ->
  bitarray_rotate a offset length amount = Ok a.
Proof.
  intros Hsum Hout. unfold bitarray_rotate.
  rewrite size_wrap_small by exact Hsum.
  destruct (Z.gtb_spec (offset + length) (bit_sz a)); [reflexivity|lia].
Qed.

Lemma bitarray_rotate_out_of_range_witness :
  bitarray_rotate (mk_bitarray 16 [0; 85]) 8 9 3 = Ok (mk_bitarray 16 [0; 85]).
Proof.
  apply (bitarray_rotate_out_of_range (mk_bitarray 16 [0; 85]) 8 9 3).
  - machine_range.
  - simpl. lia.
Defined.

(** C3: a valid call of [bitarray_rotate] whose subrange does not lie in
    one byte returns and leaves the whole buffer as it was, whatever the
    amount. *)
Theorem bitarray_rotate_multi_byte (a : bitarray) (offset length amount : Z) :
  wf_bitarray a -> 0 <= offset -> 0 <= length <= MAX_LENGTH ->
  offset + length <= bit_sz a -> is_ssize_t amount ->
  offset / 8 <> (offset + length - 1) / 8 ->
  bitarray_rotate a offset length amount = Ok a.
Proof.
  intros Hwf Hoff Hlen Hfit Hamount Hbytes.
  pose proof (wf_size a Hwf) as Hsz.
  destruct (Z_lt_dec length 2) as [Hshort|Hlong].
  - unfold bitarray_rotate.
    rewrite (size_wrap_small (offset + length)) by (unfold is_size_t in *; lia).
    destruct (Z.gtb_spec (offset + length) (bit_sz a)); [lia|].
    destruct (Z.eqb_spec length 0); [reflexivity|].
    destruct (Z.eqb_spec length 1); [reflexivity|lia].
  - rewrite bitarray_rotate_path by (auto; lia).
    destruct (amount mod length =? 0); [reflexivity|].
    destruct (Z.eqb_spec (offset / 8) ((offset + length - 1) / 8));
      [contradiction|reflexivity].
Qed.

Lemma bitarray_rotate_multi_byte_witness :
  bitarray_rotate (mk_bitarray 16 [2; 85]) 5 7 3 = Ok (mk_bitarray 16 [2; 85]).
Proof.
  apply (bitarray_rotate_multi_byte (mk_bitarray 16 [2; 85]) 5 7 3).
  - apply wf_bitarrayb_sound. reflexivity.
  - lia.
  - machine_range.
  - simpl. lia.
  - machine_range.
  - vm_compute. discriminate.
Defined.

(** C5: a valid call of [bitarray_rotate] returns an array of the same
    size in which every bit at an index outside [offset, offset + length)
    reads as before. *)
Theorem bitarray_rotate_frame (a : bitarray) (offset length amount : Z) :
  wf_bitarray a -> 0 <= offset -> 0 <= length <= MAX_LENGTH ->
  offset + length <= bit_sz a -> is_ssize_t amount ->
  exists a',
    bitarray_rotate a offset length amount = Ok a' /\
    bit_sz a' = bit_sz a /\
    forall j, 0 <= j < bit_sz a -> ~ (offset <= j < offset + length) ->
      exists v, bitarray_get a j = Ok v /\ bitarray_get a' j = Ok v.
Proof.
  intros Hwf Hoff Hlen Hfit Hamount.
  destruct (bitarray_rotate_spec a offset length amount Hwf Hoff Hlen Hfit Hamount)
    as (a' & Hrot & Hwf' & Hsz & _ & Hout & _).
  exists a'. split; [exact Hrot|]. split; [exact Hsz|].
  intros j Hj Hnot. exists (bit_of (buf a) j).
  split; [apply bitarray_get_bit_of; assumption|].
  rewrite bitarray_get_bit_of by (auto; lia).
  rewrite Hout by (auto; lia). reflexivity.
Qed.

Lemma bitarray_rotate_frame_witness :
  exists a',
    bitarray_rotate (mk_bitarray 8 [86]) 2 4 1 = Ok a' /\
    bit_sz a' = 8 /\
    forall j, 0 <= j < 8 -> ~ (2 <= j < 2 + 4) ->
      exists v, bitarray_get (mk_bitarray 8 [86]) j = Ok v /\
                bitarray_get a' j = Ok v.
Proof.
  apply (bitarray_rotate_frame (mk_bitarray 8 [86]) 2 4 1).
  - apply wf_bitarrayb_sound. reflexivity.
  - lia.
  - machine_range.
  - simpl. lia.
  - machine_range.
Defined.

(** C8: [bitarray_rotate] returns and leaves the buffer as it was whenever
    the length is 0 or 1, whatever the amount, and whenever the amount
    normalizes to 0, as every multiple of the length (0 among them)
    does. *)
Theorem bitarray_rotate_identity (a : bitarray) (offset length amount : Z) :
  length = 0 \/ length = 1 \/ get_shift length amount = Ok 0 \/
  (2 <= length <= MAX_LENGTH /\ is_ssize_t amount /\
   exists k, amount = k * length) ->
  bitarray_rotate a offset length amount = Ok a.
Proof.
  intros H.
  assert (Hshift : length = 0 \/ length = 1 \/ get_shift length amount = Ok 0).
  { destruct H as [H|[H|[H|(Hlen & Hamount & k & ->)]]]; auto.
    right; right. rewrite get_shift_correct by (auto; lia).
    rewrite Z.mod_mul by lia. reflexivity. }
  unfold bitarray_rotate.
  destruct (size_wrap (offset + length) >? bit_sz a); [reflexivity|].
  destruct Hshift as [->|[->|Hs]]; [reflexivity|reflexivity|].
  destruct ((length =? 0) || (length =? 1)); [reflexivity|].
  rewrite Hs. reflexivity.
Qed.

Lemma bitarray_rotate_identity_witness :
  bitarray_rotate (mk_bitarray 8 [86]) 2 4 (-8) = Ok (mk_bitarray 8 [86]).
Proof.
  apply (bitarray_rotate_identity (mk_bitarray 8 [86]) 2 4 (-8)).
  right; right; right. split; [machine_range|]. split; [machine_range|].
  exists (-2). reflexivity.
Defined.

(** ** Padding *)

Lemma padding_kept_of_bits (a a' : bitarray) :
  wf_bitarray a -> bit_sz a mod 8 <> 0 ->
  length (buf a') = length (buf a) ->
  (forall j, bit_sz a <= j -> bit_of (buf a') j = bit_of (buf a) j) ->
  padding_kept a a'.
Proof.
  intros Hwf Hpad Hlen Hbits.
  destruct Hwf as [Hsz Hl _]. unfold is_size_t in Hsz.
  set (n := length (buf a)) in *.
  assert (Hn : (0 < n)%nat).
  { destruct n; [|lia]. exfalso. apply Hpad.
    replace (bit_sz a) with 0 by lia. reflexivity. }
  assert (Hlast : Z.of_nat (Nat.pred n) = bit_sz a / 8)
    by (Z.div_mod_to_equations; lia).
  destruct (lookup_lt_is_Some_2 (buf a) (Nat.pred n) ltac:(lia)) as [c Hc].
  destruct (lookup_lt_is_Some_2 (buf a') (Nat.pred n) ltac:(lia)) as [c' Hc'].
  exists c, c'. rewrite !last_lookup, Hlen. fold n.
  split; [exact Hc|]. split; [exact Hc'|].
  intros p Hp.
  assert (Hdiv : (8 * (bit_sz a / 8) + p) / 8 = bit_sz a / 8)
    by (Z.div_mod_to_equations; lia).
  assert (Hmod : (8 * (bit_sz a / 8) + p) mod 8 = p)
    by (Z.div_mod_to_equations; lia).
  specialize (Hbits (8 * (bit_sz a / 8) + p) ltac:(Z.div_mod_to_equations; lia)).
  unfold bit_of in Hbits. rewrite Hdiv, Hmod, <- Hlast, Nat2Z.id, Hc, Hc' in Hbits.
  exact Hbits.
Qed.

(** C10: on an array whose size is not a multiple of 8, [bitarray_set] at a
    valid index and [bitarray_rotate] on a valid subrange return and leave
    the padding bits of the last byte as they were. *)
Theorem padding_undisturbed (a : bitarray) (index : Z) (value : bool)
    (offset length amount : Z) :
  wf_bitarray a -> bit_sz a mod 8 <> 0 ->
  0 <= index < bit_sz a ->
  0 <= offset -> 0 <= length <= MAX_LENGTH -> offset + length <= bit_sz a ->
  is_ssize_t amount ->
  (exists a', bitarray_set a index value = Ok a' /\ padding_kept a a') /\
  (exists a', bitarray_rotate a offset length amount = Ok a' /\ padding_kept a a').
Proof.
  intros Hwf Hpad Hidx Hoff Hlen Hfit Hamount. split.
  - destruct (bitarray_set_spec a index value Hwf Hidx)
      as (a' & Hset & _ & _ & Hl & Hbits).
    exists a'. split; [exact Hset|].
    apply padding_kept_of_bits; auto.
    intros j Hj. rewrite Hbits by lia.
    destruct (Z.eqb_spec j index); [lia|reflexivity].
  - destruct (bitarray_rotate_spec a offset length amount Hwf Hoff Hlen Hfit Hamount)
      as (a' & Hrot & _ & _ & Hl & Hout & _).
    exists a'. split; [exact Hrot|].
    apply padding_kept_of_bits; auto.
    intros j Hj. apply Hout; lia.
Qed.

Lemma padding_undisturbed_witness :
  (exists a', bitarray_set (mk_bitarray 6 [-61]) 2 true = Ok a' /\
              padding_kept (mk_bitarray 6 [-61]) a') /\
  (exists a', bitarray_rotate (mk_bitarray 6 [-61]) 0 6 1 = Ok a' /\
              padding_kept (mk_bitarray 6 [-61]) a').
Proof.
  apply (padding_undisturbed (mk_bitarray 6 [-61]) 2 true 0 6 1).
  - apply wf_bitarrayb_sound. reflexivity.
  - vm_compute. discriminate.
  - simpl. lia.
  - lia.
  - machine_range.
  - simpl. lia.
  - machine_range.
Defined.

(** ** Rotation: the bit-by-bit routine *)

Lemma rotate_left_one_loop_eq (a : bitarray) (off len i : Z) :
  rotate_left_one_loop a off len i =
  if size_wrap (i + 1) <? size_wrap (off + len) then
    match (v <- bitarray_get a (size_wrap (i + 1)) ;; bitarray_set a i v) with
    | Ok a' => rotate_left_one_loop a' off len (size_wrap (i + 1))
    | Err f => Err f
    end
  else Ok (a, i).
Proof.
  rewrite rotate_left_one_loop_equation_1.
  destruct (Z_lt_dec (size_wrap (i + 1)) (size_wrap (off + len))) as [H|H];
    destruct (Z.ltb_spec (size_wrap (i + 1)) (size_wrap (off + len)));
    try lia; reflexivity.
Qed.

Section BitByBit.

(** A subrange of at least one bit, fixed while the array changes. *)
Variables off len : Z.
Hypothesis Hoff : 0 <= off.
Hypothesis Hlen : 1 <= len.

Lemma fits_get (a : bitarray) (j : Z) :
  fits off len a -> off <= j < off + len -> bitarray_get a j = Ok (bit_of (buf a) j).
Proof using Hoff.
  intros [Hwf Hfit] Hj. apply bitarray_get_bit_of; [exact Hwf|lia].
Qed.

Lemma fits_set (a : bitarray) (j : Z) (v : bool) :
  fits off len a -> off <= j < off + len ->
  exists a', bitarray_set a j v = Ok a' /\
    fits off len a' /\ bit_sz a' = bit_sz a /\ length (buf a') = length (buf a) /\
    forall j', 0 <= j' ->
      bit_of (buf a') j' = if j' =? j then v else bit_of (buf a) j'.
Proof using Hoff.
  intros [Hwf Hfit] Hj.
  destruct (bitarray_set_spec a j v Hwf ltac:(lia))
    as (a' & Hset & Hwf' & Hsz & Hl & Hbits).
  exists a'. split; [exact Hset|]. split; [split; [exact Hwf'|lia]|].
  split; [exact Hsz|]. split; [exact Hl|]. exact Hbits.
Qed.

(** The loop started at [i] runs up to the last index of the subrange and
    moves every bit above [i] one place down. *)
Lemma rotate_left_one_loop_spec (n : nat) :
  forall (a : bitarray) (i : Z),
    fits off len a -> off <= i < off + len -> Z.to_nat (off + len - 1 - i) = n ->
    exists a',
      rotate_left_one_loop a off len i = Ok (a', off + len - 1) /\
      moved off len a a' (fun j => if (i <=? j) && (j <? off + len - 1)
                           then j + 1 else j).
Proof using Hoff.
  induction n as [|n IH]; intros a i Hfits Hi Hn;
    pose proof (wf_size a (proj1 Hfits)) as Hsz; unfold is_size_t in Hsz;
    pose proof (proj2 Hfits) as Hfit;
    rewrite rotate_left_one_loop_eq;
    rewrite (size_wrap_small (i + 1)), (size_wrap_small (off + len))
      by (unfold is_size_t; lia).
  - destruct (Z.ltb_spec (i + 1) (off + len)); [lia|].
    exists a. replace (off + len - 1) with i by lia.
    split; [reflexivity|]. split; [exact Hfits|]. split; [reflexivity|].
    split; [reflexivity|]. intros j Hj.
    destruct (Z.leb_spec i j); destruct (Z.ltb_spec j i); try reflexivity; lia.
  - destruct (Z.ltb_spec (i + 1) (off + len)); [|lia].
    rewrite fits_get by (auto; lia). cbn [bind].
    destruct (fits_set a i (bit_of (buf a) (i + 1)) Hfits Hi)
      as (a1 & Hset & Hfits1 & Hsz1 & Hl1 & Hbits1).
    rewrite Hset.
    destruct (IH a1 (i + 1) Hfits1 ltac:(lia) ltac:(lia))
      as (a' & Hloop & Hfits' & Hsz' & Hl' & Hbits').
    exists a'. split; [exact Hloop|]. split; [exact Hfits'|].
    split; [congruence|]. split; [congruence|].
    intros j Hj. rewrite Hbits' by exact Hj.
    destruct (Z.leb_spec (i + 1) j); destruct (Z.ltb_spec j (off + len - 1));
      destruct (Z.leb_spec i j); cbn [andb]; try lia;
      rewrite Hbits1 by lia.
    all: try (destruct (Z.eqb_spec (j + 1) i); [lia|reflexivity]).
    all: try (destruct (Z.eqb_spec j i); [lia|reflexivity]).
    destruct (Z.eqb_spec j i); [subst j; reflexivity|lia].
Qed.

Lemma bitarray_rotate_left_one_spec (a : bitarray) :
  fits off len a ->
  exists a',
    bitarray_rotate_left_one a off len = Ok a' /\
    moved off len a a' (source_index off len 1).
Proof using Hoff Hlen.
  intros Hfits. unfold bitarray_rotate_left_one.
  rewrite fits_get by (auto; lia). cbn [bind].
  destruct (rotate_left_one_loop_spec _ a off Hfits ltac:(lia) eq_refl)
    as (a1 & Hloop & Hfits1 & Hsz1 & Hl1 & Hbits1).
  rewrite Hloop. cbn [bind fst snd].
  destruct (fits_set a1 (off + len - 1) (bit_of (buf a) off) Hfits1 ltac:(lia))
    as (a' & Hset & Hfits' & Hsz' & Hl' & Hbits').
  exists a'. split; [exact Hset|]. split; [exact Hfits'|].
  split; [congruence|]. split; [congruence|].
  intros j Hj. rewrite Hbits' by exact Hj. unfold source_index.
  destruct (Z.eqb_spec j (off + len - 1)) as [->|Hne].
  - destruct (Z.leb_spec off (off + len - 1)); [|lia].
    destruct (Z.ltb_spec (off + len - 1) (off + len)); [|lia]. cbn [andb].
    replace (off + len - 1 - off + 1) with len by lia.
    rewrite Z.mod_same by lia. f_equal. lia.
  - rewrite Hbits1 by exact Hj.
    destruct (Z.leb_spec off j); destruct (Z.ltb_spec j (off + len - 1));
      destruct (Z.ltb_spec j (off + len)); cbn [andb]; try lia; try reflexivity.
    rewrite Z.mod_small by lia. f_equal. lia.
Qed.

Lemma source_index_compose (k j : Z) :
  0 <= j ->
  source_index off len 1 (source_index off len k j) =
  source_index off len (k + 1) j.
Proof using Hlen.
  intros Hj. unfold source_index.
  destruct (Z.leb_spec off j); destruct (Z.ltb_spec j (off + len)); cbn [andb].
  2-4: destruct (Z.leb_spec off j); destruct (Z.ltb_spec j (off + len));
       cbn [andb]; try lia; reflexivity.
  pose proof (Z.mod_pos_bound (j - off + k) len ltac:(lia)) as Hk.
  destruct (Z.leb_spec off (off + (j - off + k) mod len)); [|lia].
  destruct (Z.ltb_spec (off + (j - off + k) mod len) (off + len)); [|lia].
  cbn [andb]. f_equal.
  replace (off + (j - off + k) mod len - off + 1)
    with ((j - off + k) mod len + 1) by lia.
  rewrite Z.add_mod_idemp_l by lia. f_equal. lia.
Qed.

Lemma source_index_nonneg (k j : Z) :
  0 <= j -> 0 <= source_index off len k j.
Proof using Hoff Hlen.
  intros Hj. unfold source_index.
  destruct ((off <=? j) && (j <? off + len)); [|exact Hj].
  pose proof (Z.mod_pos_bound (j - off + k) len ltac:(lia)). lia.
Qed.

(** [n] rotations by one place are a rotation by [n] places. *)
Lemma rotate_left_times_spec (n : nat) :
  forall a : bitarray,
    fits off len a ->
    exists a',
      rotate_left_times n a off len = Ok a' /\
      moved off len a a' (source_index off len (Z.of_nat n)).
Proof using Hoff Hlen.
  induction n as [|n IH]; intros a Hfits.
  - exists a. split; [reflexivity|]. split; [exact Hfits|].
    split; [reflexivity|]. split; [reflexivity|].
    intros j Hj. f_equal. unfold source_index.
    destruct (Z.leb_spec off j); destruct (Z.ltb_spec j (off + len));
      cbn [andb]; try reflexivity.
    rewrite Z.add_0_r, Z.mod_small by lia. lia.
  - cbn [rotate_left_times].
    destruct (bitarray_rotate_left_one_spec a Hfits)
      as (a1 & Hone & Hfits1 & Hsz1 & Hl1 & Hbits1).
    rewrite Hone. cbn [bind].
    destruct (IH a1 Hfits1) as (a' & Htimes & Hfits' & Hsz' & Hl' & Hbits').
    exists a'. split; [exact Htimes|]. split; [exact Hfits'|].
    split; [congruence|]. split; [congruence|].
    intros j Hj. rewrite Hbits' by exact Hj.
    rewrite Hbits1 by (apply source_index_nonneg; lia).
    rewrite source_index_compose by lia. do 2 f_equal. lia.
Qed.

End BitByBit.

(** What a valid call of [bitarray_rotate_old] does: bit [j] of the
    subrange of the result is the old bit [amount] places further down,
    cyclically, and the other bits are kept. *)
Lemma bitarray_rotate_old_spec (a : bitarray) (off len amount : Z) :
  wf_bitarray a -> 0 <= off -> 0 <= len <= MAX_LENGTH ->
  off + len <= bit_sz a -> SSIZE_MIN < amount <= SSIZE_MAX ->
  exists a',
    bitarray_rotate_old a off len amount = Ok a' /\
    wf_bitarray a' /\ bit_sz a' = bit_sz a /\
    length (buf a') = length (buf a) /\
    forall j, 0 <= j ->
      bit_of (buf a') j = bit_of (buf a) (source_index off len (- amount) j).
Proof.
  intros Hwf Hoff Hlen Hfit Hamount.
  pose proof (wf_size a Hwf) as Hsz. unfold is_size_t in Hsz.
  unfold bitarray_rotate_old.
  rewrite (size_wrap_small (off + len)) by (unfold is_size_t; lia).
  destruct (Z.leb_spec (off + len) (bit_sz a)); [|lia].
  destruct (Z.eqb_spec len 0) as [->|Hne].
  - exists a. split; [reflexivity|]. split; [exact Hwf|].
    split; [reflexivity|]. split; [reflexivity|].
    intros j Hj. f_equal. unfold source_index.
    destruct (Z.leb_spec off j); destruct (Z.ltb_spec j (off + 0));
      cbn [andb]; try reflexivity; lia.
  - rewrite (ssize_wrap_small (- amount)) by machine_range.
    rewrite modulo_correct by machine_range.
    cbn [bind]. unfold bitarray_rotate_left.
    pose proof (Z.mod_pos_bound (- amount) len ltac:(lia)) as Hn.
    destruct (rotate_left_times_spec off len Hoff ltac:(lia)
                (Z.to_nat ((- amount) mod len)) a (conj Hwf Hfit))
      as (a' & Htimes & [Hwf' _] & Hsz' & Hl' & Hbits').
    exists a'. split; [exact Htimes|]. split; [exact Hwf'|].
    split; [exact Hsz'|]. split; [exact Hl'|].
    intros j Hj. rewrite Hbits' by exact Hj. f_equal.
    rewrite Z2Nat.id by lia. unfold source_index.
    destruct ((off <=? j) && (j <? off + len)); [|reflexivity].
    rewrite Z.add_mod_idemp_r by lia. reflexivity.
Qed.

(** ** Comparing the two routines *)

Lemma char_of_bits_testbit (c : Z) :
  is_char c -> char_of_bits (Z.testbit c) = c.
Proof.
  intros Hc.
  assert (H : all_chars (fun c => char_of_bits (Z.testbit c) =? c) = true)
    by (vm_compute; reflexivity).
  apply Z.eqb_eq. exact (all_chars_sound _ H c Hc).
Qed.

Lemma char_bits_inj (c1 c2 : Z) :
  is_char c1 -> is_char c2 ->
  (forall k, 0 <= k < 8 -> Z.testbit c1 k = Z.testbit c2 k) ->
  c1 = c2.
Proof.
  intros H1 H2 Hbits.
  rewrite <- (char_of_bits_testbit c1 H1), <- (char_of_bits_testbit c2 H2).
  unfold char_of_bits. cbn [fold_right].
  rewrite !Hbits by lia. reflexivity.
Qed.

(** Two buffers of [char]s of the same length with the same bits are
    equal. *)
Lemma buf_ext (b1 b2 : list Z) :
  Forall is_char b1 -> Forall is_char b2 -> length b1 = length b2 ->
  (forall j, 0 <= j -> bit_of b1 j = bit_of b2 j) ->
  b1 = b2.
Proof.
  intros Hc1 Hc2 Hlen Hbits. apply list_eq. intros i.
  destruct (b1 !! i) as [c1|] eqn:E1.
  - pose proof (lookup_lt_Some _ _ _ E1) as Hi.
    destruct (lookup_lt_is_Some_2 b2 i ltac:(lia)) as [c2 E2].
    rewrite E2. f_equal.
    apply char_bits_inj.
    + exact (Forall_lookup_1 _ _ _ _ Hc1 E1).
    + exact (Forall_lookup_1 _ _ _ _ Hc2 E2).
    + intros k Hk. specialize (Hbits (8 * Z.of_nat i + k) ltac:(lia)).
      unfold bit_of in Hbits.
      replace ((8 * Z.of_nat i + k) / 8) with (Z.of_nat i) in Hbits
        by (Z.div_mod_to_equations; lia).
      replace ((8 * Z.of_nat i + k) mod 8) with k in Hbits
        by (Z.div_mod_to_equations; lia).
      rewrite Nat2Z.id, E1, E2 in Hbits. exact Hbits.
  - symmetry. apply lookup_ge_None. apply lookup_ge_None in E1. lia.
Qed.

(** C4, as stated, fails: on the 7-bit array with bit 1 set and the
    subrange [0, 7), which lies in byte 0, a rotation by 1 moves the set bit
    to index 0 under [bitarray_rotate] and to index 2 under
    [bitarray_rotate_old]. *)
Lemma rotate_old_counterexample :
  0 + 7 <= bit_sz ba1 /\ 0 / 8 = (0 + 7 - 1) / 8 /\
  exists a1 a2,
    bitarray_rotate ba1 0 7 1 = Ok a1 /\
    bitarray_rotate_old ba1 0 7 1 = Ok a2 /\
    buf a1 = [1] /\ buf a2 = [4] /\ buf a1 <> buf a2.
Proof.
  split; [cbn; lia|]. split; [reflexivity|].
  exists (mk_bitarray 7 [1]), (mk_bitarray 7 [4]).
  split; [reflexivity|]. split; [vm_compute; reflexivity|].
  split; [reflexivity|]. split; [reflexivity|]. cbn. discriminate.
Qed.

(** C4, amended: on a valid subrange that lies in one byte and does not end
    on a set bit 7 of that byte, [bitarray_rotate] by [amount] and
    [bitarray_rotate_old] by [- amount] both return, with the same array:
    the mask based routine rotates the way the bit-by-bit one does for the
    opposite amount. *)
Theorem bitarray_rotate_old_opposite (a : bitarray) (offset length amount : Z) :
  wf_bitarray a -> 0 <= offset -> 0 <= length <= MAX_LENGTH ->
  offset + length <= bit_sz a -> SSIZE_MIN < amount <= SSIZE_MAX ->
  offset / 8 = (offset + length - 1) / 8 ->
  ((offset + length) mod 8 = 0 -> bitarray_get a (offset + length - 1) = Ok false) ->
  exists a',
    bitarray_rotate a offset length amount = Ok a' /\
    bitarray_rotate_old a offset length (- amount) = Ok a'.
Proof.
  intros Hwf Hoff Hlen Hfit Hamount Hbyte Hsign.
  destruct (bitarray_rotate_spec a offset length amount Hwf Hoff Hlen Hfit
              ltac:(unfold is_ssize_t; lia))
    as (a1 & Hnew & Hwf1 & Hsz1 & Hl1 & Hout & Hin).
  destruct (bitarray_rotate_old_spec a offset length (- amount) Hwf Hoff Hlen Hfit
              ltac:(unfold SSIZE_MIN, SSIZE_MAX in *; lia))
    as (a2 & Hold & Hwf2 & Hsz2 & Hl2 & Hbits).
  exists a1. split; [exact Hnew|]. rewrite Hold. f_equal.
  destruct a1 as [sz1 b1], a2 as [sz2 b2]. cbn [bit_sz buf] in *.
  f_equal; [congruence|]. symmetry.
  apply buf_ext; [exact (wf_chars _ Hwf1)|exact (wf_chars _ Hwf2)|congruence|].
  intros j Hj. rewrite Hbits by exact Hj. unfold source_index.
  destruct (Z.leb_spec offset j); destruct (Z.ltb_spec j (offset + length));
    cbn [andb].
  2-4: rewrite Hout by lia; reflexivity.
  rewrite Hin; [|exact Hbyte| |lia].
  - rewrite Z.opp_involutive, Z.add_mod_idemp_r by lia. reflexivity.
  - intros E. specialize (Hsign E).
    rewrite bitarray_get_bit_of in Hsign by (auto; lia). congruence.
Qed.

Lemma bitarray_rotate_old_opposite_witness :
  exists a',
    bitarray_rotate (mk_bitarray 8 [86]) 2 6 1 = Ok a' /\
    bitarray_rotate_old (mk_bitarray 8 [86]) 2 6 (- 1) = Ok a'.
Proof.
  apply (bitarray_rotate_old_opposite (mk_bitarray 8 [86]) 2 6 1).
  - apply wf_bitarrayb_sound. reflexivity.
  - lia.
  - machine_range.
  - simpl. lia.
  - machine_range.
  - reflexivity.
  - intros _. reflexivity.
Defined.

(** X21: the bit-by-bit routine rotates the way C1 describes, on subranges
    of one byte and of several bytes alike: after a valid call with an
    amount other than the least [ssize_t], whose negation the routine
    cannot form, the bit that was at [offset + i] is at
    [offset + (i + shift) mod length], [shift] being the normalized
    amount. *)
Lemma bitarray_rotate_old_rotates_right (a : bitarray) (offset length amount : Z) :
  wf_bitarray a -> 0 <= offset -> 1 <= length <= MAX_LENGTH ->
  offset + length <= bit_sz a -> SSIZE_MIN < amount <= SSIZE_MAX ->
  exists a' shift,
    bitarray_rotate_old a offset length amount = Ok a' /\
    get_shift length amount = Ok shift /\
    rotated_by a a' offset length shift.
Proof.
  intros Hwf Hoff Hlen Hfit Hamount.
  destruct (bitarray_rotate_old_spec a offset length amount Hwf Hoff
              ltac:(lia) Hfit Hamount)
    as (a' & Hold & Hwf' & Hsz' & _ & Hbits).
  exists a', (amount mod length). split; [exact Hold|].
  split; [apply get_shift_correct; [lia|unfold is_ssize_t; lia]|].
  intros i Hi. exists (bit_of (buf a) (offset + i)).
  split; [apply bitarray_get_bit_of; [exact Hwf|lia]|].
  pose proof (Z.mod_pos_bound (i + amount mod length) length ltac:(lia)) as Hk.
  rewrite bitarray_get_bit_of by (auto; lia).
  rewrite Hbits by lia. f_equal. unfold source_index.
  set (k := (i + amount mod length) mod length) in *.
  destruct (Z.leb_spec offset (offset + k)); [|lia].
  destruct (Z.ltb_spec (offset + k) (offset + length)); [|lia].
  cbn [andb]. f_equal.
  replace (offset + k - offset + - amount) with (k - amount) by lia.
  subst k. rewrite Zminus_mod_idemp_l.
  replace (i + amount mod length - amount) with (i - amount + amount mod length)
    by lia.
  rewrite Z.add_mod_idemp_r by lia.
  replace (i - amount + amount) with i by lia.
  rewrite Z.mod_small by lia. reflexivity.
Qed.

(** ** The tests of the source file

    The assertions of [run_unit], evaluated on the embedding: each of them
    holds, as it does when the C file runs. *)

Example test_mod : modulo 16 8 = Ok 0 /\ modulo 0 8 = Ok 0.
Proof. split; reflexivity. Qed.

Example test_get_shift :
  get_shift 2 10 = Ok 0 /\ get_shift 5 1 = Ok 1 /\
  get_shift 5 (-1) = Ok 4 /\ get_shift 5 (-7) = Ok 3.
Proof. repeat split; reflexivity. Qed.

Example test_bitarray :
  exists a0 a1 a2,
    bitarray_new true true 16 = Some a0 /\
    bitarray_set a0 1 true = Ok a1 /\ map to_uchar (buf a1) = [2; 0] /\
    bitarray_set a1 14 true = Ok a2 /\ map to_uchar (buf a2) = [2; 64].
Proof.
  exists (mk_bitarray 16 [0; 0]), (mk_bitarray 16 [2; 0]), (mk_bitarray 16 [2; 64]).
  repeat split; reflexivity.
Qed.

Example test_bitarray_rotate :
  bitarray_rotate ba1 0 0 0 = Ok ba1 /\
  bitarray_rotate ba1 0 8 1 = Ok ba1 /\
  bitarray_rotate ba1 0 7 0 = Ok ba1 /\
  bitarray_rotate ba1 0 1 1 = Ok ba1 /\
  bitarray_rotate ba1 0 7 1 = Ok (mk_bitarray 7 [1]) /\
  bitarray_rotate (mk_bitarray 6 [3]) 0 6 1 = Ok (mk_bitarray 6 [33]) /\
  bitarray_rotate (mk_bitarray 8 [0x56]) 2 4 1 = Ok (mk_bitarray 8 [0x6A]) /\
  bitarray_rotate (mk_bitarray 8 [0x56]) 2 6 1 = Ok (mk_bitarray 8 [to_char 0xAA]) /\
  bitarray_rotate (mk_bitarray 16 [0; 0x55]) 8 8 11
    = Ok (mk_bitarray 16 [0; to_char 0xAA]) /\
  bitarray_rotate (mk_bitarray 16 [0; 0x55]) 8 8 (-11)
    = Ok (mk_bitarray 16 [0; to_char 0xAA]).
Proof. repeat split; reflexivity. Qed.

Example test_get_char_index :
  get_char_index 7 = 0 /\ get_char_index 12 = 1 /\
  get_char_index 15 = 1 /\ get_char_index 16 = 2.
Proof. repeat split; reflexivity. Qed.

Example test_get_end_char_index :
  get_end_char_index 15 1 = 1 /\ get_end_char_index 15 2 = 2 /\
  get_end_char_index 15 9 = 2 /\ get_end_char_index 15 10 = 3.
Proof. repeat split; reflexivity. Qed.

Example test_get_end_bit :
  get_end_bit 0 6 = 2 /\ get_end_bit 0 9 = 7 /\
  get_end_bit 0 18 = 6 /\ get_end_bit 1 9 = 6.
Proof. repeat split; reflexivity. Qed.

Example test_clean_left :
  clean_left (to_char 0xFF) 1 = Ok (to_char 0x7F) /\
  clean_left (to_char 0xFF) 6 = Ok (to_char 0x03).
Proof. split; reflexivity. Qed.

Example test_clean_right :
  clean_right (to_char 0xFF) 1 = Ok (to_char 0xFE) /\
  clean_right (to_char 0xFF) 6 = Ok (to_char 0xC0).
Proof. split; reflexivity. Qed.

(** ** Two limits of the code *)

(** [MAX_LENGTH] is sharp: one past it, [(n % m) + m] leaves the range of
    [ssize_t] for some [n] and the second [assert] of [modulo] fails; from
    [2^63] on the first one does. *)
Example modulo_beyond_max_length :
  modulo (2 ^ 62) (2 ^ 62 + 1) = Err AssertFailed /\
  modulo 1 (2 ^ 63) = Err AssertFailed.
Proof. split; reflexivity. Qed.

(** The sign of [c1] at work: the byte 0xAA rotated by one over its eight
    bits becomes 0xD5, where a rotation in either direction gives 0x55, the
    result of [bitarray_rotate_old]. *)
Example rotate_single_sign :
  bitarray_rotate (mk_bitarray 8 [to_char 0xAA]) 0 8 1
    = Ok (mk_bitarray 8 [to_char 0xD5]) /\
  bitarray_rotate_old (mk_bitarray 8 [to_char 0xAA]) 0 8 1
    = Ok (mk_bitarray 8 [0x55]) /\
  bitarray_rotate_old (mk_bitarray 8 [to_char 0xAA]) 0 8 (-1)
    = Ok (mk_bitarray 8 [0x55]).
Proof. repeat split; vm_compute; reflexivity. Qed.

(** * Further properties of the code *)

(** ** Arrays with the same bits *)

Lemma wf_same_length (a1 a2 : bitarray) :
  wf_bitarray a1 -> wf_bitarray a2 -> bit_sz a1 = bit_sz a2 ->
  length (buf a1) = length (buf a2).
Proof.
  intros [_ H1 _] [_ H2 _] E. rewrite E in H1. lia.
Qed.

Lemma bitarray_ext (a1 a2 : bitarray) :
  wf_bitarray a1 -> wf_bitarray a2 -> bit_sz a1 = bit_sz a2 ->
  (forall j, 0 <= j -> bit_of (buf a1) j = bit_of (buf a2) j) ->
  a1 = a2.
Proof.
  intros H1 H2 Esz Hbits.
  pose proof (wf_same_length a1 a2 H1 H2 Esz) as Elen.
  destruct a1 as [sz1 b1], a2 as [sz2 b2]. cbn [bit_sz buf] in *.
  f_equal; [exact Esz|].
  apply buf_ext; [exact (wf_chars _ H1)|exact (wf_chars _ H2)|exact Elen|exact Hbits].
Qed.

(** The store of [bitarray_set], spelled out. *)
Lemma bitarray_set_eq (a : bitarray) (j : Z) (v : bool) :
  wf_bitarray a -> 0 <= j < bit_sz a ->
  exists c,
    buf a !! Z.to_nat (j / 8) = Some c /\
    bitarray_set a j v =
    Ok (mk_bitarray (bit_sz a)
          (<[Z.to_nat (j / 8) := char_set_bit c (j mod 8) v]> (buf a))).
Proof.
  intros Hwf Hj.
  destruct (buf_at_in_range a j Hwf Hj) as (c & Hc & Hchar & Hat).
  pose proof (buf_index_in_range a j Hwf Hj) as Hidx.
  exists c. split; [exact Hc|].
  unfold bitarray_set, buf_store.
  destruct (Z.ltb_spec j (bit_sz a)) as [_|]; [|lia].
  rewrite Hat. cbn [bind].
  destruct (Nat.ltb_spec (Z.to_nat (j / 8)) (length (buf a))) as [_|]; [|lia].
  reflexivity.
Qed.

(** ** Storage *)

(** X1: two writes to the same valid index: the second one wins, the array
    is the one a single write of the second value gives. *)
Theorem bitarray_set_set_same (a : bitarray) (index : Z) (v w : bool) :
  wf_bitarray a -> 0 <= index < bit_sz a ->
  exists a1 a2,
    bitarray_set a index v = Ok a1 /\
    bitarray_set a1 index w = Ok a2 /\
    bitarray_set a index w = Ok a2.
Proof.
  intros Hwf Hi.
  destruct (bitarray_set_spec a index v Hwf Hi)
    as (a1 & H1 & Hwf1 & Hsz1 & _ & Hb1).
  destruct (bitarray_set_spec a1 index w Hwf1 ltac:(lia))
    as (a2 & H2 & Hwf2 & Hsz2 & _ & Hb2).
  destruct (bitarray_set_spec a index w Hwf Hi)
    as (a3 & H3 & Hwf3 & Hsz3 & _ & Hb3).
  exists a1, a2. split; [exact H1|]. split; [exact H2|].
  rewrite H3. f_equal. apply bitarray_ext; [assumption|assumption|congruence|].
  intros j Hj. rewrite Hb3, Hb2, Hb1 by exact Hj.
  destruct (j =? index); reflexivity.
Qed.

Lemma bitarray_set_set_same_witness :
  exists a1 a2,
    bitarray_set (mk_bitarray 16 [2; 0]) 9 true = Ok a1 /\
    bitarray_set a1 9 false = Ok a2 /\
    bitarray_set (mk_bitarray 16 [2; 0]) 9 false = Ok a2.
Proof.
  apply (bitarray_set_set_same (mk_bitarray 16 [2; 0]) 9 true false).
  - apply wf_bitarrayb_sound. reflexivity.
  - simpl. lia.
Defined.

(** X2: writes to two different valid indices commute. *)
Theorem bitarray_set_set_commute (a : bitarray) (i j : Z) (v w : bool) :
  wf_bitarray a -> 0 <= i < bit_sz a -> 0 <= j < bit_sz a -> i <> j ->
  exists ai aj a',
    bitarray_set a i v = Ok ai /\ bitarray_set ai j w = Ok a' /\
    bitarray_set a j w = Ok aj /\ bitarray_set aj i v = Ok a'.
Proof.
  intros Hwf Hi Hj Hne.
  destruct (bitarray_set_spec a i v Hwf Hi) as (ai & H1 & Hwf1 & Hsz1 & _ & Hb1).
  destruct (bitarray_set_spec ai j w Hwf1 ltac:(lia))
    as (a' & H2 & Hwf2 & Hsz2 & _ & Hb2).
  destruct (bitarray_set_spec a j w Hwf Hj) as (aj & H3 & Hwf3 & Hsz3 & _ & Hb3).
  destruct (bitarray_set_spec aj i v Hwf3 ltac:(lia))
    as (a'' & H4 & Hwf4 & Hsz4 & _ & Hb4).
  exists ai, aj, a'. split; [exact H1|]. split; [exact H2|]. split; [exact H3|].
  rewrite H4. f_equal. apply bitarray_ext; [assumption|assumption|congruence|].
  intros k Hk. rewrite Hb4, Hb3, Hb2, Hb1 by exact Hk.
  destruct (Z.eqb_spec k i); destruct (Z.eqb_spec k j); try reflexivity; lia.
Qed.

Lemma bitarray_set_set_commute_witness :
  exists ai aj a',
    bitarray_set (mk_bitarray 16 [2; 0]) 3 true = Ok ai /\
    bitarray_set ai 1 false = Ok a' /\
    bitarray_set (mk_bitarray 16 [2; 0]) 1 false = Ok aj /\
    bitarray_set aj 3 true = Ok a'.
Proof.
  apply (bitarray_set_set_commute (mk_bitarray 16 [2; 0]) 3 1 true false).
  - apply wf_bitarrayb_sound. reflexivity.
  - simpl. lia.
  - simpl. lia.
  - lia.
Defined.

Lemma bitarray_set_same_value (a : bitarray) (index : Z) :
  wf_bitarray a -> 0 <= index < bit_sz a ->
  bitarray_set a index (bit_of (buf a) index) = Ok a.
Proof.
  intros Hwf Hi.
  destruct (bitarray_set_spec a index (bit_of (buf a) index) Hwf Hi)
    as (a' & Hset & Hwf' & Hsz & _ & Hbits).
  rewrite Hset. f_equal. apply bitarray_ext; [assumption|assumption|exact Hsz|].
  intros j Hj. rewrite Hbits by exact Hj.
  destruct (Z.eqb_spec j index) as [->|]; reflexivity.
Qed.

(** X3: writing back the value [bitarray_get] reads at a valid index leaves
    the array as it was, padding included. *)
Theorem bitarray_set_read_back (a : bitarray) (index : Z) :
  wf_bitarray a -> 0 <= index < bit_sz a ->
  exists v, bitarray_get a index = Ok v /\ bitarray_set a index v = Ok a.
Proof.
  intros Hwf Hi. exists (bit_of (buf a) index).
  split; [apply bitarray_get_bit_of; assumption|].
  apply bitarray_set_same_value; assumption.
Qed.

Lemma bitarray_set_read_back_witness :
  exists v, bitarray_get (mk_bitarray 6 [-61]) 1 = Ok v /\
            bitarray_set (mk_bitarray 6 [-61]) 1 v = Ok (mk_bitarray 6 [-61]).
Proof.
  apply (bitarray_set_read_back (mk_bitarray 6 [-61]) 1).
  - apply wf_bitarrayb_sound. reflexivity.
  - simpl. lia.
Defined.

(** X4: [bitarray_set] at a valid index keeps the size of the array and the
    length of the buffer, stores [char]s only, and leaves every byte other
    than byte [index / 8] as it was. *)
Theorem bitarray_set_one_byte (a : bitarray) (index : Z) (value : bool) :
  wf_bitarray a -> 0 <= index < bit_sz a ->
  exists a',
    bitarray_set a index value = Ok a' /\ wf_bitarray a' /\
    same_but_byte (Z.to_nat (index / 8)) a a'.
Proof.
  intros Hwf Hi.
  destruct (bitarray_set_eq a index value Hwf Hi) as (c & Hc & Hset).
  destruct (bitarray_set_spec a index value Hwf Hi)
    as (a' & Hset' & Hwf' & Hsz & Hl & _).
  exists a'. split; [exact Hset'|]. split; [exact Hwf'|].
  split; [exact Hsz|]. split; [exact Hl|].
  intros i Hne. rewrite Hset in Hset'. injection Hset' as <-. cbn [buf].
  apply list_lookup_insert_ne. congruence.
Qed.

Lemma bitarray_set_one_byte_witness :
  exists a',
    bitarray_set (mk_bitarray 16 [2; 0]) 14 true = Ok a' /\ wf_bitarray a' /\
    same_but_byte (Z.to_nat (14 / 8)) (mk_bitarray 16 [2; 0]) a'.
Proof.
  apply (bitarray_set_one_byte (mk_bitarray 16 [2; 0]) 14 true).
  - apply wf_bitarrayb_sound. reflexivity.
  - simpl. lia.
Defined.

(** X5: at an index that is not below [bit_sz], [bitarray_get] and
    [bitarray_set] fail their [assert]; no bit is read or written. *)
Theorem bitarray_index_out_of_range (a : bitarray) (index : Z) (value : bool) :
  bit_sz a <= index ->
  bitarray_get a index = Err AssertFailed /\
  bitarray_set a index value = Err AssertFailed.
Proof.
  intros H. unfold bitarray_get, bitarray_set.
  destruct (Z.ltb_spec index (bit_sz a)); [lia|]. split; reflexivity.
Qed.

Lemma bitarray_index_out_of_range_witness :
  bitarray_get (mk_bitarray 7 [2]) 7 = Err AssertFailed /\
  bitarray_set (mk_bitarray 7 [2]) 7 true = Err AssertFailed.
Proof.
  apply (bitarray_index_out_of_range (mk_bitarray 7 [2]) 7 true). simpl. lia.
Defined.

(** ** Index and mask helpers *)

(** X6: [modulo] returns the non-negative remainder whenever the modulus is
    a positive [ssize_t] and the sum [(n % m) + m] it forms fits a
    [ssize_t]; no modulus up to 2^62 is needed for that. *)
Theorem modulo_floor (n m : Z) :
  is_ssize_t n -> 1 <= m <= SSIZE_MAX -> Z.rem n m + m <= SSIZE_MAX ->
  modulo n m = Ok (n mod m) /\ 0 <= n mod m < m.
Proof.
  unfold is_ssize_t, SSIZE_MIN, SSIZE_MAX. intros Hn Hm Hfit.
  assert (Hrem : - m < Z.rem n m < m).
  { pose proof (Z.rem_bound_abs n m ltac:(lia)). lia. }
  assert (Hsum : Z.rem n m + m = n + (1 - Z.quot n m) * m).
  { pose proof (Z.quot_rem' n m). lia. }
  pose proof (Z.mod_pos_bound n m ltac:(lia)) as Hmod.
  split; [|exact Hmod]. unfold modulo.
  rewrite (ssize_wrap_small m) by machine_range.
  destruct (Z.ltb_spec 0 m) as [_|]; [|lia].
  rewrite (ssize_wrap_small (Z.rem n m + m)) by machine_range.
  rewrite Z.rem_mod_nonneg by lia.
  rewrite Hsum, Z.mod_add by lia.
  destruct (Z.leb_spec 0 (n mod m)) as [_|]; [|lia].
  rewrite size_wrap_small by machine_range.
  reflexivity.
Qed.

Lemma modulo_floor_witness :
  modulo (-7) (2 ^ 63 - 1) = Ok ((-7) mod (2 ^ 63 - 1)) /\
  0 <= (-7) mod (2 ^ 63 - 1) < 2 ^ 63 - 1.
Proof.
  apply (modulo_floor (-7) (2 ^ 63 - 1)).
  - machine_range.
  - machine_range.
  - vm_compute. discriminate.
Defined.

(** X7: a modulus of 0, and a [size_t] modulus above the largest
    [ssize_t], fail the first [assert] of [modulo]; [get_shift] fails with
    it, whatever the amount. *)
Theorem modulo_rejects (n m : Z) :
  is_size_t m -> m = 0 \/ SSIZE_MAX < m ->
  modulo n m = Err AssertFailed /\ get_shift m n = Err AssertFailed.
Proof.
  intros Hm Hbad.
  assert (E : modulo n m = Err AssertFailed).
  { unfold modulo.
    assert (Hneg : ssize_wrap m <= 0).
    { unfold ssize_wrap, is_size_t, SIZE_MOD, SSIZE_MAX in *.
      destruct Hbad as [->|Hbig]; [vm_compute; discriminate|].
      replace (m + 2 ^ 63) with (m - 2 ^ 63 + 1 * 2 ^ 64) by lia.
      rewrite Z.mod_add by lia. rewrite Z.mod_small by lia. lia. }
    destruct (Z.ltb_spec 0 (ssize_wrap m)); [lia|reflexivity]. }
  split; [exact E|]. unfold get_shift. rewrite E. reflexivity.
Qed.

Lemma modulo_rejects_witness :
  modulo 5 0 = Err AssertFailed /\ get_shift 0 5 = Err AssertFailed.
Proof.
  apply (modulo_rejects 5 0).
  - machine_range.
  - left. reflexivity.
Defined.

(** X8: [get_end_bit] is the number of bits, fewer than 8, that lie between
    the end of the subrange and the next byte boundary; the wrap-around of
    the [size_t] sum does not change it. *)
Theorem get_end_bit_boundary (bit_offset bit_length : Z) :
  0 <= get_end_bit bit_offset bit_length < 8 /\
  (bit_offset + bit_length + get_end_bit bit_offset bit_length) mod 8 = 0.
Proof.
  unfold get_end_bit, size_wrap, SIZE_MOD.
  assert (E : ((bit_offset + bit_length) mod 2 ^ 64) mod 8
              = (bit_offset + bit_length) mod 8).
  { pose proof (Z.div_mod (bit_offset + bit_length) (2 ^ 64) ltac:(lia)).
    Z.div_mod_to_equations. lia. }
  rewrite E.
  pose proof (Z.mod_pos_bound (bit_offset + bit_length) 8 ltac:(lia)) as Hx.
  rewrite (Z.mod_small (8 - (bit_offset + bit_length) mod 8) (2 ^ 64)) by lia.
  split; [apply Z.mod_pos_bound; lia|].
  Z.div_mod_to_equations. lia.
Qed.

(** X9: for a subrange of at least one bit whose end is a [size_t], the
    byte index of its last bit is not below that of its first bit, and the
    two are equal, the case [bitarray_rotate] acts on, exactly when the
    subrange fits between its first bit and the end of that byte. *)
Theorem single_byte_iff (bit_offset bit_length : Z) :
  0 <= bit_offset -> 1 <= bit_length -> bit_offset + bit_length <= SIZE_MOD ->
  get_char_index bit_offset <= get_end_char_index bit_offset bit_length /\
  (get_char_index bit_offset = get_end_char_index bit_offset bit_length <->
   bit_offset mod 8 + bit_length <= 8).
Proof.
  intros Hoff Hlen Hsum. unfold get_end_char_index, get_char_index.
  rewrite size_wrap_small by machine_range.
  split; [|split; intros H]; Z.div_mod_to_equations; lia.
Qed.

Lemma single_byte_iff_witness :
  get_char_index 15 <= get_end_char_index 15 2 /\
  (get_char_index 15 = get_end_char_index 15 2 <-> 15 mod 8 + 2 <= 8).
Proof.
  apply (single_byte_iff 15 2).
  - lia.
  - lia.
  - machine_range.
Defined.

(** X10: for a count from 0 to 8, [clean_left] reads inside its table and
    returns the byte with its [bit_count] most significant bits cleared and
    the other bits kept. *)
Theorem clean_left_bits (c bit_count : Z) :
  is_char c -> 0 <= bit_count <= 8 ->
  exists r,
    clean_left c bit_count = Ok r /\ is_char r /\
    forall j, 0 <= j < 8 ->
      Z.testbit r j = Z.testbit c j && (j <? 8 - bit_count).
Proof.
  intros Hc Hk.
  assert (H : all_chars (fun c => all_from 9 0 (fun k =>
            match clean_left c k with
            | Ok r => is_charb r && all_bits (fun j =>
                Bool.eqb (Z.testbit r j) (Z.testbit c j && (j <? 8 - k)))
            | Err _ => false
            end)) = true) by (vm_compute; reflexivity).
  pose proof (all_from_sound 9 0 _ (all_chars_sound _ H c Hc) bit_count
                ltac:(lia)) as Hck. cbv beta in Hck.
  destruct (clean_left c bit_count) as [r|]; [|discriminate].
  apply andb_true_iff in Hck as [Hr Hbits].
  exists r. split; [reflexivity|]. split; [apply is_charb_spec; exact Hr|].
  intros j Hj. apply Bool.eqb_prop. exact (all_bits_sound _ Hbits j Hj).
Qed.

Lemma clean_left_bits_witness :
  exists r,
    clean_left (-1) 6 = Ok r /\ is_char r /\
    forall j, 0 <= j < 8 -> Z.testbit r j = Z.testbit (-1) j && (j <? 8 - 6).
Proof.
  apply (clean_left_bits (-1) 6).
  - machine_range.
  - lia.
Defined.

(** X11: for a count from 0 to 8, [clean_right] reads inside its table and
    returns the byte with its [bit_count] least significant bits cleared
    and the other bits kept. *)
Theorem clean_right_bits (c bit_count : Z) :
  is_char c -> 0 <= bit_count <= 8 ->
  exists r,
    clean_right c bit_count = Ok r /\ is_char r /\
    forall j, 0 <= j < 8 ->
      Z.testbit r j = Z.testbit c j && (bit_count <=? j).
Proof.
  intros Hc Hk.
  assert (H : all_chars (fun c => all_from 9 0 (fun k =>
            match clean_right c k with
            | Ok r => is_charb r && all_bits (fun j =>
                Bool.eqb (Z.testbit r j) (Z.testbit c j && (k <=? j)))
            | Err _ => false
            end)) = true) by (vm_compute; reflexivity).
  pose proof (all_from_sound 9 0 _ (all_chars_sound _ H c Hc) bit_count
                ltac:(lia)) as Hck. cbv beta in Hck.
  destruct (clean_right c bit_count) as [r|]; [|discriminate].
  apply andb_true_iff in Hck as [Hr Hbits].
  exists r. split; [reflexivity|]. split; [apply is_charb_spec; exact Hr|].
  intros j Hj. apply Bool.eqb_prop. exact (all_bits_sound _ Hbits j Hj).
Qed.

Lemma clean_right_bits_witness :
  exists r,
    clean_right (-1) 6 = Ok r /\ is_char r /\
    forall j, 0 <= j < 8 -> Z.testbit r j = Z.testbit (-1) j && (6 <=? j).
Proof.
  apply (clean_right_bits (-1) 6).
  - machine_range.
  - lia.
Defined.

(** X12: [clean_left] with a count and [clean_right] with the complement
    of the count to 8 split a byte into two parts that share no bit and
    whose union is the byte: the way [rotate_single] takes a byte apart. *)
Theorem clean_split (c bit_count : Z) :
  is_char c -> 0 <= bit_count <= 8 ->
  exists l r,
    clean_left c bit_count = Ok l /\ clean_right c (8 - bit_count) = Ok r /\
    Z.lor l r = c /\ Z.land l r = 0.
Proof.
  intros Hc Hk.
  assert (H : all_chars (fun c => all_from 9 0 (fun k =>
            match clean_left c k, clean_right c (8 - k) with
            | Ok l, Ok r => (Z.lor l r =? c) && (Z.land l r =? 0)
            | _, _ => false
            end)) = true) by (vm_compute; reflexivity).
  pose proof (all_from_sound 9 0 _ (all_chars_sound _ H c Hc) bit_count
                ltac:(lia)) as Hck. cbv beta in Hck.
  destruct (clean_left c bit_count) as [l|]; [|discriminate].
  destruct (clean_right c (8 - bit_count)) as [r|]; [|discriminate].
  apply andb_true_iff in Hck as [Hor Hand].
  exists l, r. split; [reflexivity|]. split; [reflexivity|].
  split; [apply Z.eqb_eq; exact Hor|apply Z.eqb_eq; exact Hand].
Qed.

Lemma clean_split_witness :
  exists l r,
    clean_left 86 3 = Ok l /\ clean_right 86 (8 - 3) = Ok r /\
    Z.lor l r = 86 /\ Z.land l r = 0.
Proof.
  apply (clean_split 86 3).
  - machine_range.
  - lia.
Defined.

(** ** Moves of a subrange and how they compose *)

Lemma source_index_outside (off len k j : Z) :
  ~ (off <= j < off + len) -> source_index off len k j = j.
Proof.
  intros H. unfold source_index.
  destruct (Z.leb_spec off j); destruct (Z.ltb_spec j (off + len));
    cbn [andb]; try reflexivity; lia.
Qed.

Lemma source_index_inside (off len k j : Z) :
  off <= j < off + len ->
  source_index off len k j = off + (j - off + k) mod len /\
  off <= source_index off len k j < off + len.
Proof.
  intros H. unfold source_index.
  destruct (Z.leb_spec off j); [|lia].
  destruct (Z.ltb_spec j (off + len)); [|lia]. cbn [andb].
  pose proof (Z.mod_pos_bound (j - off + k) len ltac:(lia)). lia.
Qed.

Lemma source_index_add (off len k1 k2 j : Z) :
  source_index off len k1 (source_index off len k2 j) =
  source_index off len (k2 + k1) j.
Proof.
  destruct (Z_le_dec off j) as [Hlo|Hlo];
    [destruct (Z_lt_dec j (off + len)) as [Hhi|Hhi]|].
  - destruct (source_index_inside off len k2 j ltac:(lia)) as [E2 Hin].
    destruct (source_index_inside off len k1 _ Hin) as [E1 _].
    destruct (source_index_inside off len (k2 + k1) j ltac:(lia)) as [E _].
    rewrite E1, E, E2. f_equal.
    replace (off + (j - off + k2) mod len - off + k1)
      with ((j - off + k2) mod len + k1) by lia.
    rewrite Z.add_mod_idemp_l by lia. f_equal. lia.
  - rewrite !(source_index_outside off len _ j) by lia. reflexivity.
  - rewrite !(source_index_outside off len _ j) by lia. reflexivity.
Qed.

Lemma source_index_0 (off len j : Z) : source_index off len 0 j = j.
Proof.
  destruct (Z_le_dec off j) as [Hlo|Hlo];
    [destruct (Z_lt_dec j (off + len)) as [Hhi|Hhi]|].
  - destruct (source_index_inside off len 0 j ltac:(lia)) as [E _].
    rewrite E, Z.add_0_r, Z.mod_small by lia. lia.
  - apply source_index_outside. lia.
  - apply source_index_outside. lia.
Qed.

Lemma source_index_congr (off len k k' j : Z) :
  k mod len = k' mod len ->
  source_index off len k j = source_index off len k' j.
Proof.
  intros Hk.
  destruct (Z_le_dec off j) as [Hlo|Hlo];
    [destruct (Z_lt_dec j (off + len)) as [Hhi|Hhi]|].
  - destruct (source_index_inside off len k j ltac:(lia)) as [E _].
    destruct (source_index_inside off len k' j ltac:(lia)) as [E' _].
    rewrite E, E'. f_equal.
    rewrite <- (Z.add_mod_idemp_r (j - off) k), <- (Z.add_mod_idemp_r (j - off) k')
      by lia.
    rewrite Hk. reflexivity.
  - rewrite !(source_index_outside off len _ j) by lia. reflexivity.
  - rewrite !(source_index_outside off len _ j) by lia. reflexivity.
Qed.

Lemma source_index_pos (off len k j : Z) :
  0 <= off -> 0 <= j -> 0 <= source_index off len k j.
Proof.
  intros Hoff Hj.
  destruct (Z_le_dec off j) as [Hlo|Hlo];
    [destruct (Z_lt_dec j (off + len)) as [Hhi|Hhi]|].
  - destruct (source_index_inside off len k j ltac:(lia)) as [_ H]. lia.
  - rewrite source_index_outside by lia. exact Hj.
  - rewrite source_index_outside by lia. exact Hj.
Qed.

Lemma moved_compose (off len k1 k2 : Z) (a a1 a2 : bitarray) :
  0 <= off ->
  moved off len a a1 (source_index off len k1) ->
  moved off len a1 a2 (source_index off len k2) ->
  moved off len a a2 (source_index off len (k1 + k2)).
Proof.
  intros Hoff (Hf1 & Hsz1 & Hl1 & Hb1) (Hf2 & Hsz2 & Hl2 & Hb2).
  split; [exact Hf2|]. split; [congruence|]. split; [congruence|].
  intros j Hj. rewrite Hb2 by exact Hj.
  rewrite Hb1 by (apply source_index_pos; assumption).
  rewrite source_index_add. f_equal. f_equal. lia.
Qed.

Lemma moved_unique (off len : Z) (a a1 a2 : bitarray) (f g : Z -> Z) :
  moved off len a a1 f -> moved off len a a2 g ->
  (forall j, 0 <= j -> bit_of (buf a) (f j) = bit_of (buf a) (g j)) ->
  a1 = a2.
Proof.
  intros ([Hwf1 _] & Hsz1 & _ & Hb1) ([Hwf2 _] & Hsz2 & _ & Hb2) Hfg.
  apply bitarray_ext; [assumption|assumption|congruence|].
  intros j Hj. rewrite Hb1, Hb2 by exact Hj. apply Hfg. exact Hj.
Qed.

Lemma moved_refl (off len : Z) (a : bitarray) :
  fits off len a -> moved off len a a (source_index off len 0).
Proof.
  intros Hf. split; [exact Hf|]. split; [reflexivity|]. split; [reflexivity|].
  intros j _. rewrite source_index_0. reflexivity.
Qed.

(** ** The mask based rotation: more on a call *)

(** A valid call on a subrange of one byte, with a shift that is not 0,
    stores in byte [off / 8] the byte [rotate_char] makes of the old one. *)
Lemma bitarray_rotate_single_eq (a : bitarray) (off len amount : Z) :
  wf_bitarray a -> 0 <= off -> 2 <= len <= MAX_LENGTH ->
  off + len <= bit_sz a -> is_ssize_t amount ->
  amount mod len <> 0 -> off / 8 = (off + len - 1) / 8 ->
  1 <= amount mod len < len /\ off mod 8 + len <= 8 /\
  exists cb r,
    buf a !! Z.to_nat (off / 8) = Some cb /\ is_char cb /\
    rotate_char cb (off mod 8) (8 - off mod 8 - len) (amount mod len) = Ok r /\
    is_char r /\
    (forall j, 0 <= j < 8 ->
       (j < off mod 8 \/ off mod 8 + len <= j -> Z.testbit r j = Z.testbit cb j) /\
       (off mod 8 <= j < off mod 8 + len ->
        sign_extends cb (8 - off mod 8 - len) = true ->
        Z.testbit r j =
        if 8 - amount mod len <=? j then true
        else rotated_bit cb (off mod 8) (8 - off mod 8 - len) (amount mod len) j)) /\
    bitarray_rotate a off len amount =
    Ok (mk_bitarray (bit_sz a) (<[Z.to_nat (off / 8) := r]> (buf a))).
Proof.
  intros Hwf Hoff Hlen Hfit Hamount Hs0 Hbyte.
  pose proof (wf_size a Hwf) as Hsz. unfold is_size_t in Hsz.
  rewrite bitarray_rotate_path by (auto using wf_size; lia).
  pose proof (Z.mod_pos_bound amount len ltac:(lia)) as Hs.
  destruct (Z.eqb_spec (amount mod len) 0) as [|_]; [contradiction|].
  destruct (Z.eqb_spec (off / 8) ((off + len - 1) / 8)) as [_|]; [|contradiction].
  pose proof (single_byte_bits off len Hoff ltac:(lia) Hbyte) as Hbits.
  pose proof (Z.mod_pos_bound off 8 ltac:(lia)) as Hb.
  rewrite get_end_bit_single_byte by (auto; lia).
  rewrite Z.rem_small by lia.
  destruct (buf_at_in_range a off Hwf ltac:(lia)) as (cb & Hcb & Hchar & Hat).
  pose proof (buf_index_in_range a off Hwf ltac:(lia)) as Hidx.
  destruct (rotate_char_spec cb (off mod 8) (8 - off mod 8 - len) (amount mod len)
              Hchar ltac:(lia) ltac:(lia) ltac:(lia) ltac:(lia))
    as (r & Hr & Hrchar & Hrbits).
  split; [lia|]. split; [exact Hbits|].
  exists cb, r. split; [exact Hcb|]. split; [exact Hchar|].
  split; [exact Hr|]. split; [exact Hrchar|]. split.
  - intros j Hj. destruct (Hrbits j Hj) as (Hout & _ & Hsign). split.
    + intros H. apply Hout. lia.
    + intros H. apply Hsign. lia.
  - rewrite rotate_single_char, Hat. cbn [bind]. rewrite Hr. cbn [bind].
    unfold buf_store.
    destruct (Nat.ltb_spec (Z.to_nat (off / 8)) (length (buf a))); [|lia].
    reflexivity.
Qed.

(** A valid call either returns the array as it was or stores one [char]
    in byte [off / 8]. *)
Lemma bitarray_rotate_cases (a : bitarray) (off len amount : Z) :
  wf_bitarray a -> 0 <= off -> 0 <= len <= MAX_LENGTH ->
  off + len <= bit_sz a -> is_ssize_t amount ->
  bitarray_rotate a off len amount = Ok a \/
  exists r, is_char r /\
    bitarray_rotate a off len amount =
    Ok (mk_bitarray (bit_sz a) (<[Z.to_nat (off / 8) := r]> (buf a))).
Proof.
  intros Hwf Hoff Hlen Hfit Hamount.
  pose proof (wf_size a Hwf) as Hsz. unfold is_size_t in Hsz.
  destruct (Z_lt_dec len 2) as [Hshort|Hlong].
  - left. unfold bitarray_rotate.
    rewrite (size_wrap_small (off + len)) by (unfold is_size_t; lia).
    destruct (Z.gtb_spec (off + len) (bit_sz a)); [lia|].
    destruct (Z.eqb_spec len 0); [reflexivity|].
    destruct (Z.eqb_spec len 1); [reflexivity|lia].
  - destruct (Z.eq_dec (amount mod len) 0) as [Hs0|Hs0];
      [|destruct (Z.eq_dec (off / 8) ((off + len - 1) / 8)) as [Hbyte|Hbyte]].
    + left. rewrite bitarray_rotate_path by (auto using wf_size; lia).
      rewrite Hs0. reflexivity.
    + right.
      destruct (bitarray_rotate_single_eq a off len amount Hwf Hoff ltac:(lia)
                  Hfit Hamount Hs0 Hbyte)
        as (_ & _ & cb & r & _ & _ & _ & Hr & _ & E).
      exists r. split; [exact Hr|exact E].
    + left. rewrite bitarray_rotate_path by (auto using wf_size; lia).
      destruct (amount mod len =? 0); [reflexivity|].
      destruct (Z.eqb_spec (off / 8) ((off + len - 1) / 8));
        [contradiction|reflexivity].
Qed.

(** X13: a valid call of [bitarray_rotate] returns an array of the same
    size over a buffer of the same length, all of whose bytes are [char]s,
    and every byte other than byte [offset / 8] is as it was. *)
Theorem bitarray_rotate_one_byte (a : bitarray) (offset bit_length amount : Z) :
  wf_bitarray a -> 0 <= offset -> 0 <= bit_length <= MAX_LENGTH ->
  offset + bit_length <= bit_sz a -> is_ssize_t amount ->
  exists a',
    bitarray_rotate a offset bit_length amount = Ok a' /\ wf_bitarray a' /\
    same_but_byte (Z.to_nat (offset / 8)) a a'.
Proof.
  intros Hwf Hoff Hlen Hfit Hamount.
  destruct (bitarray_rotate_cases a offset bit_length amount Hwf Hoff Hlen Hfit Hamount)
    as [E|(r & Hr & E)]; rewrite E.
  - exists a. split; [reflexivity|]. split; [exact Hwf|].
    split; [reflexivity|]. split; [reflexivity|]. reflexivity.
  - eexists. split; [reflexivity|]. split.
    + destruct Hwf as [W1 W2 W3]. constructor; cbn [bit_sz buf].
      * exact W1.
      * rewrite length_insert. exact W2.
      * apply Forall_insert; assumption.
    + split; [reflexivity|]. split; [apply length_insert|].
      intros i Hne. cbn [buf]. apply list_lookup_insert_ne. congruence.
Qed.

Lemma bitarray_rotate_one_byte_witness :
  exists a',
    bitarray_rotate (mk_bitarray 16 [2; 85]) 9 6 2 = Ok a' /\ wf_bitarray a' /\
    same_but_byte (Z.to_nat (9 / 8)) (mk_bitarray 16 [2; 85]) a'.
Proof.
  apply (bitarray_rotate_one_byte (mk_bitarray 16 [2; 85]) 9 6 2).
  - apply wf_bitarrayb_sound. reflexivity.
  - lia.
  - machine_range.
  - simpl. lia.
  - machine_range.
Defined.

(** X14: [bitarray_rotate] depends on the amount through its remainder
    modulo the length only: two [ssize_t] amounts that are congruent modulo
    the length give the same result, on whatever array and offset. *)
Theorem bitarray_rotate_amount_mod (a : bitarray)
    (offset bit_length amount amount' : Z) :
  0 <= bit_length <= MAX_LENGTH -> is_ssize_t amount -> is_ssize_t amount' ->
  amount mod bit_length = amount' mod bit_length ->
  bitarray_rotate a offset bit_length amount =
  bitarray_rotate a offset bit_length amount'.
Proof.
  intros Hlen H1 H2 Hmod. unfold bitarray_rotate.
  destruct (size_wrap (offset + bit_length) >? bit_sz a); [reflexivity|].
  destruct (Z.eqb_spec bit_length 0); [reflexivity|].
  destruct (Z.eqb_spec bit_length 1); [reflexivity|]. cbn [orb].
  rewrite !get_shift_correct by (auto; lia). rewrite Hmod. reflexivity.
Qed.

Lemma bitarray_rotate_amount_mod_witness :
  bitarray_rotate (mk_bitarray 8 [86]) 2 6 1 =
  bitarray_rotate (mk_bitarray 8 [86]) 2 6 (-11).
Proof.
  apply (bitarray_rotate_amount_mod (mk_bitarray 8 [86]) 2 6 1 (-11)).
  - machine_range.
  - machine_range.
  - machine_range.
  - reflexivity.
Defined.

(** X15: the sign of [c1] at work.  When a subrange of one byte ends on a
    set bit 7 of that byte and the shift is not 0, [bitarray_rotate] leaves
    the top [shift] bits of the subrange set, whatever was to be rotated
    into them; the bits below them are the old bits [shift] places up. *)
Theorem bitarray_rotate_sign_fill (a : bitarray)
    (offset bit_length amount shift : Z) :
  wf_bitarray a -> 0 <= offset -> 2 <= bit_length <= MAX_LENGTH ->
  offset + bit_length <= bit_sz a -> is_ssize_t amount ->
  offset / 8 = (offset + bit_length - 1) / 8 ->
  (offset + bit_length) mod 8 = 0 ->
  bitarray_get a (offset + bit_length - 1) = Ok true ->
  get_shift bit_length amount = Ok shift -> shift <> 0 ->
  exists a',
    bitarray_rotate a offset bit_length amount = Ok a' /\
    (forall j, offset + bit_length - shift <= j < offset + bit_length ->
       bitarray_get a' j = Ok true) /\
    (forall j, offset <= j < offset + bit_length - shift ->
       exists v, bitarray_get a (j + shift) = Ok v /\ bitarray_get a' j = Ok v).
Proof.
  intros Hwf Hoff Hlen Hfit Hamount Hbyte Hend Htop Hshift Hne.
  rewrite get_shift_correct in Hshift by (auto; lia).
  injection Hshift as <-.
  destruct (bitarray_rotate_single_eq a offset bit_length amount Hwf Hoff Hlen
              Hfit Hamount Hne Hbyte)
    as (Hs & Hbits & cb & r & Hcb & Hchar & _ & Hrchar & Hr & E).
  set (s := amount mod bit_length) in *. set (b := offset mod 8) in *.
  pose proof (Z.mod_pos_bound offset 8 ltac:(lia)) as Hb. fold b in Hb.
  assert (Hoffb : offset = 8 * (offset / 8) + b) by (apply Z.div_mod; lia).
  assert (Hb8 : b + bit_length = 8).
  { subst b. Z.div_mod_to_equations. lia. }
  pose proof (buf_index_in_range a offset Hwf ltac:(lia)) as Hidx.
  assert (Hsign : sign_extends cb (8 - b - bit_length) = true).
  { unfold sign_extends. replace (8 - b - bit_length) with 0 by lia.
    cbn [Z.eqb andb]. rewrite bitarray_get_bit_of in Htop by (auto; lia).
    injection Htop as <-. unfold bit_of.
    replace ((offset + bit_length - 1) / 8) with (offset / 8) by exact Hbyte.
    rewrite Hcb. f_equal. Z.div_mod_to_equations. lia. }
  set (a' := mk_bitarray (bit_sz a) (<[Z.to_nat (offset / 8) := r]> (buf a))) in *.
  assert (Hwf' : wf_bitarray a').
  { destruct Hwf as [W1 W2 W3]. constructor; cbn [a' bit_sz buf].
    - exact W1.
    - rewrite length_insert. exact W2.
    - apply Forall_insert; assumption. }
  assert (Hnew : forall j, offset <= j < offset + bit_length ->
            bitarray_get a' j = Ok (Z.testbit r (j - 8 * (offset / 8))) /\
            b <= j - 8 * (offset / 8) < 8).
  { intros j Hj. rewrite bitarray_get_bit_of by (auto; cbn [a' bit_sz]; lia).
    cbn [a' buf]. rewrite bit_of_insert by exact Hidx.
    assert (Ediv : j / 8 = offset / 8) by (Z.div_mod_to_equations; lia).
    rewrite Ediv, Nat.eqb_refl.
    assert (Emod : j mod 8 = j - 8 * (offset / 8)) by (Z.div_mod_to_equations; lia).
    rewrite Emod. split; [reflexivity|lia]. }
  exists a'. split; [exact E|]. split.
  - intros j Hj. destruct (Hnew j ltac:(lia)) as [-> Hk]. f_equal.
    destruct (Hr (j - 8 * (offset / 8)) ltac:(lia)) as [_ Hfill].
    rewrite Hfill by (auto; lia).
    destruct (Z.leb_spec (8 - s) (j - 8 * (offset / 8))); [reflexivity|lia].
  - intros j Hj. exists (bit_of (buf a) (j + s)).
    split; [apply bitarray_get_bit_of; [exact Hwf|lia]|].
    destruct (Hnew j ltac:(lia)) as [-> Hk]. f_equal.
    destruct (Hr (j - 8 * (offset / 8)) ltac:(lia)) as [_ Hfill].
    rewrite Hfill by (auto; lia).
    destruct (Z.leb_spec (8 - s) (j - 8 * (offset / 8))); [lia|].
    unfold rotated_bit.
    destruct (Z.leb_spec b (j - 8 * (offset / 8))); [|lia].
    destruct (Z.ltb_spec (j - 8 * (offset / 8)) (8 - (8 - b - bit_length))); [|lia].
    cbn [andb]. unfold bit_of.
    assert (Ediv : (j + s) / 8 = offset / 8) by (Z.div_mod_to_equations; lia).
    rewrite Ediv, Hcb. f_equal.
    replace (8 - b - (8 - b - bit_length)) with bit_length by lia.
    rewrite Z.mod_small by lia. Z.div_mod_to_equations. lia.
Qed.

Lemma bitarray_rotate_sign_fill_witness :
  exists a',
    bitarray_rotate (mk_bitarray 8 [-86]) 0 8 1 = Ok a' /\
    (forall j, 0 + 8 - 1 <= j < 0 + 8 -> bitarray_get a' j = Ok true) /\
    (forall j, 0 <= j < 0 + 8 - 1 ->
       exists v, bitarray_get (mk_bitarray 8 [-86]) (j + 1) = Ok v /\
                 bitarray_get a' j = Ok v).
Proof.
  apply (bitarray_rotate_sign_fill (mk_bitarray 8 [-86]) 0 8 1 1).
  - apply wf_bitarrayb_sound. reflexivity.
  - lia.
  - machine_range.
  - simpl. lia.
  - machine_range.
  - reflexivity.
  - reflexivity.
  - reflexivity.
  - reflexivity.
  - lia.
Defined.

(** On a subrange of one byte that does not end on a set bit 7,
    [bitarray_rotate] moves the subrange by the amount towards the lower
    indices. *)
Lemma bitarray_rotate_moved (a : bitarray) (off len amount : Z) :
  wf_bitarray a -> 0 <= off -> 0 <= len <= MAX_LENGTH ->
  off + len <= bit_sz a -> is_ssize_t amount ->
  off / 8 = (off + len - 1) / 8 -> ends_clear a off len ->
  exists a',
    bitarray_rotate a off len amount = Ok a' /\
    moved off len a a' (source_index off len amount).
Proof.
  intros Hwf Hoff Hlen Hfit Hamount Hbyte Hclear.
  destruct (bitarray_rotate_spec a off len amount Hwf Hoff Hlen Hfit Hamount)
    as (a' & Hrot & Hwf' & Hsz & Hl & Hout & Hin).
  exists a'. split; [exact Hrot|].
  split; [split; [exact Hwf'|lia]|]. split; [exact Hsz|]. split; [exact Hl|].
  intros j Hj.
  destruct (Z_le_dec off j) as [Hlo|Hlo];
    [destruct (Z_lt_dec j (off + len)) as [Hhi|Hhi]|].
  - destruct (source_index_inside off len amount j ltac:(lia)) as [E _].
    rewrite E, Hin; [|exact Hbyte| |lia].
    + rewrite Z.add_mod_idemp_r by lia. reflexivity.
    + intros E8. specialize (Hclear E8).
      rewrite bitarray_get_bit_of in Hclear by (auto; lia). congruence.
  - rewrite source_index_outside by lia. apply Hout; lia.
  - rewrite source_index_outside by lia. apply Hout; lia.
Qed.

(** X16: two calls of [bitarray_rotate] on the same subrange of one byte
    compose: when neither the array nor the array after the first call has
    a set bit 7 at the end of the subrange, rotating by [k1] and then by
    [k2] gives the array that one call with [k1 + k2] gives. *)
Theorem bitarray_rotate_compose (a a1 : bitarray)
    (offset bit_length k1 k2 : Z) :
  wf_bitarray a -> 0 <= offset -> 0 <= bit_length <= MAX_LENGTH ->
  offset + bit_length <= bit_sz a ->
  is_ssize_t k1 -> is_ssize_t k2 -> is_ssize_t (k1 + k2) ->
  offset / 8 = (offset + bit_length - 1) / 8 ->
  ends_clear a offset bit_length ->
  bitarray_rotate a offset bit_length k1 = Ok a1 ->
  ends_clear a1 offset bit_length ->
  exists a2,
    bitarray_rotate a1 offset bit_length k2 = Ok a2 /\
    bitarray_rotate a offset bit_length (k1 + k2) = Ok a2.
Proof.
  intros Hwf Hoff Hlen Hfit H1 H2 H12 Hbyte Hclear Hrot1 Hclear1.
  destruct (bitarray_rotate_moved a offset bit_length k1 Hwf Hoff Hlen Hfit H1
              Hbyte Hclear) as (a1' & E1 & M1).
  rewrite Hrot1 in E1. injection E1 as <-.
  destruct M1 as ([Hwf1 Hfit1] & Hsz1 & Hl1 & Hb1).
  destruct (bitarray_rotate_moved a1 offset bit_length k2 Hwf1 Hoff Hlen Hfit1 H2
              Hbyte Hclear1) as (a2 & E2 & M2).
  destruct (bitarray_rotate_moved a offset bit_length (k1 + k2) Hwf Hoff Hlen
              Hfit H12 Hbyte Hclear) as (a3 & E3 & M3).
  exists a2. split; [exact E2|]. rewrite E3. f_equal.
  apply (moved_unique offset bit_length a a3 a2 _ _ M3
           (moved_compose offset bit_length k1 k2 a a1 a2 Hoff
              (conj (conj Hwf1 Hfit1) (conj Hsz1 (conj Hl1 Hb1))) M2)).
  intros j _. reflexivity.
Qed.

Lemma bitarray_rotate_compose_witness :
  exists a2,
    bitarray_rotate (mk_bitarray 8 [20]) 2 6 2 = Ok a2 /\
    bitarray_rotate (mk_bitarray 8 [40]) 2 6 (1 + 2) = Ok a2.
Proof.
  apply (bitarray_rotate_compose (mk_bitarray 8 [40]) (mk_bitarray 8 [20]) 2 6 1 2).
  - apply wf_bitarrayb_sound. reflexivity.
  - lia.
  - machine_range.
  - simpl. lia.
  - machine_range.
  - machine_range.
  - machine_range.
  - reflexivity.
  - intros _. reflexivity.
  - reflexivity.
  - intros _. reflexivity.
Defined.

(** X17: on a subrange of one byte, a call of [bitarray_rotate] with the
    opposite amount undoes a call, when neither the array nor the rotated
    array has a set bit 7 at the end of the subrange. *)
Theorem bitarray_rotate_inverse (a a1 : bitarray)
    (offset bit_length amount : Z) :
  wf_bitarray a -> 0 <= offset -> 0 <= bit_length <= MAX_LENGTH ->
  offset + bit_length <= bit_sz a ->
  SSIZE_MIN < amount <= SSIZE_MAX ->
  offset / 8 = (offset + bit_length - 1) / 8 ->
  ends_clear a offset bit_length ->
  bitarray_rotate a offset bit_length amount = Ok a1 ->
  ends_clear a1 offset bit_length ->
  bitarray_rotate a1 offset bit_length (- amount) = Ok a.
Proof.
  intros Hwf Hoff Hlen Hfit Hamount Hbyte Hclear Hrot1 Hclear1.
  destruct (bitarray_rotate_moved a offset bit_length amount Hwf Hoff Hlen Hfit
              ltac:(machine_range) Hbyte Hclear) as (a1' & E1 & M1).
  rewrite Hrot1 in E1. injection E1 as <-.
  pose proof M1 as ([Hwf1 Hfit1] & _).
  destruct (bitarray_rotate_moved a1 offset bit_length (- amount) Hwf1 Hoff Hlen
              Hfit1 ltac:(machine_range) Hbyte Hclear1) as (a2 & E2 & M2).
  rewrite E2. f_equal.
  pose proof (moved_compose offset bit_length amount (- amount) a a1 a2 Hoff M1 M2)
    as M.
  replace (amount + - amount) with 0 in M by lia.
  apply (moved_unique offset bit_length a a2 a _ _ M
           (moved_refl offset bit_length a (conj Hwf Hfit))).
  intros j _. reflexivity.
Qed.

Lemma bitarray_rotate_inverse_witness :
  bitarray_rotate (mk_bitarray 8 [20]) 2 6 (- 1) = Ok (mk_bitarray 8 [40]).
Proof.
  apply (bitarray_rotate_inverse (mk_bitarray 8 [40]) (mk_bitarray 8 [20]) 2 6 1).
  - apply wf_bitarrayb_sound. reflexivity.
  - lia.
  - machine_range.
  - simpl. lia.
  - machine_range.
  - reflexivity.
  - intros _. reflexivity.
  - reflexivity.
  - intros _. reflexivity.
Defined.

(** ** The bit-by-bit rotation: more on its parts and on a call *)

Lemma moved_get (off len : Z) (a a' : bitarray) (src : Z -> Z) (j : Z) :
  wf_bitarray a -> moved off len a a' src ->
  0 <= j < bit_sz a -> 0 <= src j < bit_sz a ->
  exists v, bitarray_get a (src j) = Ok v /\ bitarray_get a' j = Ok v.
Proof.
  intros Hwf ([Hwf' _] & Hsz & _ & Hb) Hj Hs.
  exists (bit_of (buf a) (src j)).
  split; [apply bitarray_get_bit_of; assumption|].
  rewrite bitarray_get_bit_of by (auto; lia). rewrite Hb by lia. reflexivity.
Qed.

(** X18: [bitarray_rotate_left_one] on a valid subrange of at least one bit
    returns an array of the same size in which every bit of the subrange
    but the last is the old next bit, the last bit is the old first bit,
    and the bits outside the subrange read as before. *)
Theorem bitarray_rotate_left_one_shifts (a : bitarray) (offset bit_length : Z) :
  wf_bitarray a -> 0 <= offset -> 1 <= bit_length ->
  offset + bit_length <= bit_sz a ->
  exists a',
    bitarray_rotate_left_one a offset bit_length = Ok a' /\
    bit_sz a' = bit_sz a /\
    (forall j, offset <= j < offset + bit_length - 1 ->
       exists v, bitarray_get a (j + 1) = Ok v /\ bitarray_get a' j = Ok v) /\
    (exists v, bitarray_get a offset = Ok v /\
               bitarray_get a' (offset + bit_length - 1) = Ok v) /\
    (forall j, 0 <= j < bit_sz a -> ~ (offset <= j < offset + bit_length) ->
       exists v, bitarray_get a j = Ok v /\ bitarray_get a' j = Ok v).
Proof.
  intros Hwf Hoff Hlen Hfit.
  destruct (bitarray_rotate_left_one_spec offset bit_length Hoff Hlen a
              (conj Hwf Hfit)) as (a' & Hone & M).
  exists a'. split; [exact Hone|]. split; [exact (proj1 (proj2 M))|].
  split; [|split].
  - intros j Hj.
    destruct (source_index_inside offset bit_length 1 j ltac:(lia)) as [E _].
    rewrite Z.mod_small in E by lia.
    pose proof (moved_get offset bit_length a a' _ j Hwf M ltac:(lia) ltac:(lia))
      as G.
    replace (source_index offset bit_length 1 j) with (j + 1) in G by lia.
    exact G.
  - destruct (source_index_inside offset bit_length 1 (offset + bit_length - 1)
                ltac:(lia)) as [E _].
    replace (offset + bit_length - 1 - offset + 1) with bit_length in E by lia.
    rewrite Z.mod_same in E by lia.
    pose proof (moved_get offset bit_length a a' _ (offset + bit_length - 1) Hwf M
                  ltac:(lia) ltac:(lia)) as G.
    replace (source_index offset bit_length 1 (offset + bit_length - 1))
      with offset in G by lia.
    exact G.
  - intros j Hj Hout.
    pose proof (source_index_outside offset bit_length 1 j Hout) as E.
    pose proof (moved_get offset bit_length a a' _ j Hwf M ltac:(lia) ltac:(lia))
      as G.
    rewrite E in G. exact G.
Qed.

Lemma bitarray_rotate_left_one_shifts_witness :
  exists a',
    bitarray_rotate_left_one (mk_bitarray 16 [2; 85]) 5 7 = Ok a' /\
    bit_sz a' = 16 /\
    (forall j, 5 <= j < 5 + 7 - 1 ->
       exists v, bitarray_get (mk_bitarray 16 [2; 85]) (j + 1) = Ok v /\
                 bitarray_get a' j = Ok v) /\
    (exists v, bitarray_get (mk_bitarray 16 [2; 85]) 5 = Ok v /\
               bitarray_get a' (5 + 7 - 1) = Ok v) /\
    (forall j, 0 <= j < 16 -> ~ (5 <= j < 5 + 7) ->
       exists v, bitarray_get (mk_bitarray 16 [2; 85]) j = Ok v /\
                 bitarray_get a' j = Ok v).
Proof.
  apply (bitarray_rotate_left_one_shifts (mk_bitarray 16 [2; 85]) 5 7).
  - apply wf_bitarrayb_sound. reflexivity.
  - lia.
  - lia.
  - simpl. lia.
Defined.

(** X19: on an empty subrange [bitarray_rotate_left_one] still reads and
    writes the bit at the offset: it returns the array as it was when the
    offset is a valid index, and fails the [assert] of [bitarray_get] when
    the offset is [bit_sz] or more. *)
Theorem bitarray_rotate_left_one_empty (a : bitarray) (offset : Z) :
  wf_bitarray a -> 0 <= offset ->
  (offset < bit_sz a -> bitarray_rotate_left_one a offset 0 = Ok a) /\
  (bit_sz a <= offset -> bitarray_rotate_left_one a offset 0 = Err AssertFailed).
Proof.
  intros Hwf Hoff. pose proof (wf_size a Hwf) as Hsz. unfold is_size_t in Hsz.
  unfold bitarray_rotate_left_one. split; intros H.
  - rewrite bitarray_get_bit_of by (auto; lia). cbn [bind].
    rewrite rotate_left_one_loop_eq.
    rewrite (size_wrap_small (offset + 1)), (size_wrap_small (offset + 0))
      by (unfold is_size_t; lia).
    destruct (Z.ltb_spec (offset + 1) (offset + 0)); [lia|].
    cbn [bind fst snd]. apply bitarray_set_same_value; [exact Hwf|lia].
  - unfold bitarray_get. destruct (Z.ltb_spec offset (bit_sz a)); [lia|].
    reflexivity.
Qed.

Lemma bitarray_rotate_left_one_empty_witness :
  (3 < bit_sz (mk_bitarray 7 [2]) ->
   bitarray_rotate_left_one (mk_bitarray 7 [2]) 3 0 = Ok (mk_bitarray 7 [2])) /\
  (bit_sz (mk_bitarray 7 [2]) <= 3 ->
   bitarray_rotate_left_one (mk_bitarray 7 [2]) 3 0 = Err AssertFailed).
Proof.
  apply (bitarray_rotate_left_one_empty (mk_bitarray 7 [2]) 3).
  - apply wf_bitarrayb_sound. reflexivity.
  - lia.
Defined.

Lemma bitarray_rotate_left_moved (a : bitarray) (off len n : Z) :
  wf_bitarray a -> 0 <= off -> 1 <= len -> off + len <= bit_sz a -> 0 <= n ->
  exists a',
    bitarray_rotate_left a off len n = Ok a' /\
    moved off len a a' (source_index off len n).
Proof.
  intros Hwf Hoff Hlen Hfit Hn. unfold bitarray_rotate_left.
  destruct (rotate_left_times_spec off len Hoff Hlen (Z.to_nat n) a (conj Hwf Hfit))
    as (a' & E & M).
  rewrite Z2Nat.id in M by lia. exists a'. split; assumption.
Qed.

(** X20: [bitarray_rotate_left] is periodic in its amount: on a valid
    subrange of at least one bit, [bit_length] more single rotations give
    the same array, and [bit_length] of them give the array back. *)
Theorem bitarray_rotate_left_period (a : bitarray) (offset bit_length n : Z) :
  wf_bitarray a -> 0 <= offset -> 1 <= bit_length ->
  offset + bit_length <= bit_sz a -> 0 <= n ->
  bitarray_rotate_left a offset bit_length bit_length = Ok a /\
  exists a',
    bitarray_rotate_left a offset bit_length n = Ok a' /\
    bitarray_rotate_left a offset bit_length (n + bit_length) = Ok a'.
Proof.
  intros Hwf Hoff Hlen Hfit Hn. split.
  - destruct (bitarray_rotate_left_moved a offset bit_length bit_length Hwf Hoff
                Hlen Hfit ltac:(lia)) as (a' & E & M).
    rewrite E. f_equal.
    apply (moved_unique offset bit_length a a' a _ _ M
             (moved_refl offset bit_length a (conj Hwf Hfit))).
    intros j _. f_equal. apply source_index_congr.
    rewrite Z.mod_same, Z.mod_0_l by lia. reflexivity.
  - destruct (bitarray_rotate_left_moved a offset bit_length n Hwf Hoff Hlen Hfit Hn)
      as (a1 & E1 & M1).
    destruct (bitarray_rotate_left_moved a offset bit_length (n + bit_length) Hwf
                Hoff Hlen Hfit ltac:(lia)) as (a2 & E2 & M2).
    exists a1. split; [exact E1|]. rewrite E2. f_equal.
    apply (moved_unique offset bit_length a a2 a1 _ _ M2 M1).
    intros j _. f_equal. apply source_index_congr.
    rewrite <- (Z.mul_1_l bit_length) at 1. apply Z.mod_add. lia.
Qed.

Lemma bitarray_rotate_left_period_witness :
  bitarray_rotate_left (mk_bitarray 16 [2; 85]) 5 7 7 = Ok (mk_bitarray 16 [2; 85]) /\
  exists a',
    bitarray_rotate_left (mk_bitarray 16 [2; 85]) 5 7 3 = Ok a' /\
    bitarray_rotate_left (mk_bitarray 16 [2; 85]) 5 7 (3 + 7) = Ok a'.
Proof.
  apply (bitarray_rotate_left_period (mk_bitarray 16 [2; 85]) 5 7 3).
  - apply wf_bitarrayb_sound. reflexivity.
  - lia.
  - lia.
  - simpl. lia.
  - lia.
Defined.

Lemma bitarray_rotate_old_rotates_right_witness :
  exists a' shift,
    bitarray_rotate_old (mk_bitarray 16 [2; 85]) 5 7 3 = Ok a' /\
    get_shift 7 3 = Ok shift /\
    rotated_by (mk_bitarray 16 [2; 85]) a' 5 7 shift.
Proof.
  apply (bitarray_rotate_old_rotates_right (mk_bitarray 16 [2; 85]) 5 7 3).
  - apply wf_bitarrayb_sound. reflexivity.
  - lia.
  - machine_range.
  - simpl. lia.
  - machine_range.
Defined.

Lemma bitarray_rotate_old_moved (a : bitarray) (off len amount : Z) :
  wf_bitarray a -> 0 <= off -> 0 <= len <= MAX_LENGTH ->
  off + len <= bit_sz a -> SSIZE_MIN < amount <= SSIZE_MAX ->
  exists a',
    bitarray_rotate_old a off len amount = Ok a' /\
    moved off len a a' (source_index off len (- amount)).
Proof.
  intros Hwf Hoff Hlen Hfit Hamount.
  destruct (bitarray_rotate_old_spec a off len amount Hwf Hoff Hlen Hfit Hamount)
    as (a' & E & Hwf' & Hsz & Hl & Hb).
  exists a'. split; [exact E|].
  split; [split; [exact Hwf'|lia]|]. split; [exact Hsz|]. split; [exact Hl|exact Hb].
Qed.

(** X22: a valid call of [bitarray_rotate_old] returns a well-formed array
    of the same size over a buffer of the same length; every bit outside
    the subrange reads as before, and the padding bits of the last byte are
    kept. *)
Theorem bitarray_rotate_old_frame (a : bitarray) (offset bit_length amount : Z) :
  wf_bitarray a -> 0 <= offset -> 0 <= bit_length <= MAX_LENGTH ->
  offset + bit_length <= bit_sz a -> SSIZE_MIN < amount <= SSIZE_MAX ->
  exists a',
    bitarray_rotate_old a offset bit_length amount = Ok a' /\
    wf_bitarray a' /\ bit_sz a' = bit_sz a /\
    length (buf a') = length (buf a) /\
    (forall j, 0 <= j < bit_sz a -> ~ (offset <= j < offset + bit_length) ->
       exists v, bitarray_get a j = Ok v /\ bitarray_get a' j = Ok v) /\
    (bit_sz a mod 8 <> 0 -> padding_kept a a').
Proof.
  intros Hwf Hoff Hlen Hfit Hamount.
  destruct (bitarray_rotate_old_moved a offset bit_length amount Hwf Hoff Hlen
              Hfit Hamount) as (a' & E & M).
  pose proof M as ([Hwf' _] & Hsz & Hl & Hb).
  exists a'. split; [exact E|]. split; [exact Hwf'|]. split; [exact Hsz|].
  split; [exact Hl|]. split.
  - intros j Hj Hout.
    pose proof (source_index_outside offset bit_length (- amount) j Hout) as Es.
    pose proof (moved_get offset bit_length a a' _ j Hwf M ltac:(lia) ltac:(lia))
      as G.
    rewrite Es in G. exact G.
  - intros Hpad. apply padding_kept_of_bits; auto.
    intros j Hj. rewrite Hb by (pose proof (wf_size a Hwf); machine_range).
    rewrite source_index_outside by lia. reflexivity.
Qed.

Lemma bitarray_rotate_old_frame_witness :
  exists a',
    bitarray_rotate_old (mk_bitarray 14 [2; -43]) 5 7 3 = Ok a' /\
    wf_bitarray a' /\ bit_sz a' = 14 /\
    length (buf a') = length [2; -43] /\
    (forall j, 0 <= j < 14 -> ~ (5 <= j < 5 + 7) ->
       exists v, bitarray_get (mk_bitarray 14 [2; -43]) j = Ok v /\
                 bitarray_get a' j = Ok v) /\
    (14 mod 8 <> 0 -> padding_kept (mk_bitarray 14 [2; -43]) a').
Proof.
  apply (bitarray_rotate_old_frame (mk_bitarray 14 [2; -43]) 5 7 3).
  - apply wf_bitarrayb_sound. reflexivity.
  - lia.
  - machine_range.
  - simpl. lia.
  - machine_range.
Defined.

(** X23: a call of [bitarray_rotate_old] whose subrange ends beyond
    [bit_sz] (the end being a [size_t]) fails its [assert]: unlike
    [bitarray_rotate], it does not return. *)
Theorem bitarray_rotate_old_out_of_range (a : bitarray)
    (offset bit_length amount : Z) :
  is_size_t (offset + bit_length) -> bit_sz a < offset + bit_length ->
  bitarray_rotate_old a offset bit_length amount = Err AssertFailed.
Proof.
  intros Hsum Hout. unfold bitarray_rotate_old.
  rewrite size_wrap_small by exact Hsum.
  destruct (Z.leb_spec (offset + bit_length) (bit_sz a)); [lia|reflexivity].
Qed.

Lemma bitarray_rotate_old_out_of_range_witness :
  bitarray_rotate_old (mk_bitarray 7 [2]) 0 8 1 = Err AssertFailed.
Proof.
  apply (bitarray_rotate_old_out_of_range (mk_bitarray 7 [2]) 0 8 1).
  - machine_range.
  - simpl. lia.
Defined.

(** X24: [bitarray_rotate_old] returns the array as it was, without a
    single read or write, when the length is 0 and when the amount is a
    multiple of the length (any amount for the length 1). *)
Theorem bitarray_rotate_old_identity (a : bitarray)
    (offset bit_length amount : Z) :
  is_size_t (bit_sz a) -> 0 <= offset + bit_length <= bit_sz a ->
  bit_length = 0 \/
  (1 <= bit_length <= MAX_LENGTH /\ SSIZE_MIN < amount <= SSIZE_MAX /\
   exists k, amount = k * bit_length) ->
  bitarray_rotate_old a offset bit_length amount = Ok a.
Proof.
  intros Hsz Hfit H. unfold bitarray_rotate_old.
  rewrite size_wrap_small by machine_range.
  destruct (Z.leb_spec (offset + bit_length) (bit_sz a)); [|lia].
  destruct H as [->|(Hlen & Hamount & k & ->)]; [reflexivity|].
  destruct (Z.eqb_spec bit_length 0); [reflexivity|].
  rewrite ssize_wrap_small by machine_range.
  rewrite modulo_correct by machine_range. cbn [bind].
  replace (- (k * bit_length)) with ((- k) * bit_length) by lia.
  rewrite Z.mod_mul by lia. reflexivity.
Qed.

Lemma bitarray_rotate_old_identity_witness :
  bitarray_rotate_old (mk_bitarray 16 [2; 85]) 5 7 (-14)
  = Ok (mk_bitarray 16 [2; 85]).
Proof.
  apply (bitarray_rotate_old_identity (mk_bitarray 16 [2; 85]) 5 7 (-14)).
  - cbn [bit_sz]. machine_range.
  - simpl. lia.
  - right. split; [machine_range|]. split; [machine_range|].
    exists (-2). reflexivity.
Defined.

(** X25: two valid calls of [bitarray_rotate_old] on the same subrange
    compose: when [k1], [k2] and [k1 + k2] are [ssize_t] values other than
    the least one, whose negation the routine cannot form, rotating by [k1]
    and then by [k2] gives the array that one call with [k1 + k2] gives. *)
Theorem bitarray_rotate_old_compose (a : bitarray)
    (offset bit_length k1 k2 : Z) :
  wf_bitarray a -> 0 <= offset -> 0 <= bit_length <= MAX_LENGTH ->
  offset + bit_length <= bit_sz a ->
  SSIZE_MIN < k1 <= SSIZE_MAX -> SSIZE_MIN < k2 <= SSIZE_MAX ->
  SSIZE_MIN < k1 + k2 <= SSIZE_MAX ->
  exists a1 a2,
    bitarray_rotate_old a offset bit_length k1 = Ok a1 /\
    bitarray_rotate_old a1 offset bit_length k2 = Ok a2 /\
    bitarray_rotate_old a offset bit_length (k1 + k2) = Ok a2.
Proof.
  intros Hwf Hoff Hlen Hfit H1 H2 H12.
  destruct (bitarray_rotate_old_moved a offset bit_length k1 Hwf Hoff Hlen Hfit H1)
    as (a1 & E1 & M1).
  pose proof M1 as ([Hwf1 Hfit1] & _).
  destruct (bitarray_rotate_old_moved a1 offset bit_length k2 Hwf1 Hoff Hlen Hfit1 H2)
    as (a2 & E2 & M2).
  destruct (bitarray_rotate_old_moved a offset bit_length (k1 + k2) Hwf Hoff Hlen
              Hfit H12) as (a3 & E3 & M3).
  exists a1, a2. split; [exact E1|]. split; [exact E2|]. rewrite E3. f_equal.
  apply (moved_unique offset bit_length a a3 a2 _ _ M3
           (moved_compose offset bit_length (- k1) (- k2) a a1 a2 Hoff M1 M2)).
  intros j _. do 2 f_equal. lia.
Qed.

Lemma bitarray_rotate_old_compose_witness :
  exists a1 a2,
    bitarray_rotate_old (mk_bitarray 16 [2; 85]) 5 7 3 = Ok a1 /\
    bitarray_rotate_old a1 5 7 (-5) = Ok a2 /\
    bitarray_rotate_old (mk_bitarray 16 [2; 85]) 5 7 (3 + -5) = Ok a2.
Proof.
  apply (bitarray_rotate_old_compose (mk_bitarray 16 [2; 85]) 5 7 3 (-5)).
  - apply wf_bitarrayb_sound. reflexivity.
  - lia.
  - machine_range.
  - simpl. lia.
  - machine_range.
  - machine_range.
  - machine_range.
Defined.

(** X26: a valid call of [bitarray_rotate_old] is undone by the call with
    the opposite amount, on subranges of any number of bytes. *)
Theorem bitarray_rotate_old_inverse (a : bitarray)
    (offset bit_length amount : Z) :
  wf_bitarray a -> 0 <= offset -> 0 <= bit_length <= MAX_LENGTH ->
  offset + bit_length <= bit_sz a -> SSIZE_MIN < amount <= SSIZE_MAX ->
  exists a1,
    bitarray_rotate_old a offset bit_length amount = Ok a1 /\
    bitarray_rotate_old a1 offset bit_length (- amount) = Ok a.
Proof.
  intros Hwf Hoff Hlen Hfit Hamount.
  destruct (bitarray_rotate_old_moved a offset bit_length amount Hwf Hoff Hlen
              Hfit Hamount) as (a1 & E1 & M1).
  pose proof M1 as ([Hwf1 Hfit1] & _).
  destruct (bitarray_rotate_old_moved a1 offset bit_length (- amount) Hwf1 Hoff
              Hlen Hfit1 ltac:(machine_range)) as (a2 & E2 & M2).
  exists a1. split; [exact E1|]. rewrite E2. f_equal.
  pose proof (moved_compose offset bit_length (- amount) (- - amount) a a1 a2
                Hoff M1 M2) as M.
  replace (- amount + - - amount) with 0 in M by lia.
  apply (moved_unique offset bit_length a a2 a _ _ M
           (moved_refl offset bit_length a (conj Hwf Hfit))).
  intros j _. reflexivity.
Qed.

Lemma bitarray_rotate_old_inverse_witness :
  exists a1,
    bitarray_rotate_old (mk_bitarray 16 [2; 85]) 5 7 3 = Ok a1 /\
    bitarray_rotate_old a1 5 7 (- 3) = Ok (mk_bitarray 16 [2; 85]).
Proof.
  apply (bitarray_rotate_old_inverse (mk_bitarray 16 [2; 85]) 5 7 3).
  - apply wf_bitarrayb_sound. reflexivity.
  - lia.
  - machine_range.
  - simpl. lia.
  - machine_range.
Defined.

(** The least [ssize_t] amount: [- bit_right_amount] wraps to the amount
    itself, so [bitarray_rotate_old] rotates by the remainder of 2^63, not
    of - 2^63; on seven bits that is a rotation to the right by 1 where
    [get_shift] gives 6. *)
Example rotate_old_least_amount :
  bitarray_rotate_old (mk_bitarray 16 [2; 85]) 5 7 SSIZE_MIN
    = Ok (mk_bitarray 16 [2; 90]) /\
  bitarray_rotate_old (mk_bitarray 16 [2; 85]) 5 7 1
    = Ok (mk_bitarray 16 [2; 90]) /\
  get_shift 7 SSIZE_MIN = Ok 6.
Proof. repeat split; vm_compute; reflexivity. Qed.
